(** * Momentum: the timetable ingestion pipeline

    A shallow embedding of [parseOCRToTimetable] (client/src/lib/ocrUtils.ts)
    and of the [/api/ocr] route (server routes), with the properties of the
    pipeline stated and proved over them; then of the code around them: the
    scanner and uploader components that call the route, the grouping of
    [TimetableView] and [base64ToBlob].

    JavaScript strings are sequences of UTF-16 code units; the regular
    expressions of the source are kept as syntax trees and run by a
    backtracking matcher that follows the matcher semantics of ECMA-262
    (continuation passing, greedy quantifiers, leftmost match). *)

From stdpp Require Import gmap strings list pretty sorting.

Local Open Scope N_scope.
Local Open Scope nat_scope.

(** ** Strings *)

(** A JavaScript string: its UTF-16 code units. *)
Abbreviation jsstring := (list N).

(** An ASCII literal as a JavaScript string. *)
Fixpoint str (s : string) : jsstring :=
  match s with
  | EmptyString => []
  | String a s' => Ascii.N_of_ascii a :: str s'
  end.

#[global] Arguments str : simpl never.

Module Char.

Definition in_range (lo hi c : N) : bool := (lo <=? c)%N && (c <=? hi)%N.

Definition is_digit (c : N) : bool := in_range 48 57 c.
Definition is_lower (c : N) : bool := in_range 97 122 c.
Definition is_upper (c : N) : bool := in_range 65 90 c.

(** WhiteSpace and LineTerminator code units: what [\s] matches and what
    [String.prototype.trim] strips. *)
Definition is_space (c : N) : bool :=
  in_range 9 13 c || (c =? 32)%N || (c =? 160)%N || (c =? 5760)%N
  || in_range 8192 8202 c || (c =? 8232)%N || (c =? 8233)%N
  || (c =? 8239)%N || (c =? 8287)%N || (c =? 12288)%N || (c =? 65279)%N.

(** [IsWordChar] on a code unit: [A-Za-z0-9_]. *)
Definition is_word (c : N) : bool :=
  is_lower c || is_upper c || is_digit c || (c =? 95)%N.

Definition upper (c : N) : N := if is_lower c then (c - 32)%N else c.
Definition lower (c : N) : N := if is_upper c then (c + 32)%N else c.

(** [Canonicalize] under the [i] flag without the [u] flag. A code unit
    from 128 up never canonicalizes to an ASCII one, and the non-ASCII
    code units the patterns mention (U+2013, U+2014) are caseless, so
    the upper-case table is only needed on ASCII. *)
Definition canonicalize (c : N) : N := upper c.

End Char.

(** [toUpperCase] and [toLowerCase], on the code units they are applied to
    in this program: the first group of [dayPattern], which only holds
    ASCII letters (lemma [day_group_letters] below). *)
Definition toUpperCase (s : jsstring) : jsstring := map Char.upper s.
Definition toLowerCase (s : jsstring) : jsstring := map Char.lower s.

(** [s.substring(i, j)] for [i <= j]. *)
Definition substring (s : jsstring) (i j : nat) : jsstring :=
  take (j - i) (drop i s).

Definition charAt (s : jsstring) (i : nat) : jsstring := substring s i (S i).
Definition slice_from (s : jsstring) (i : nat) : jsstring := drop i s.

Fixpoint trimStart (s : jsstring) : jsstring :=
  match s with
  | c :: s' => if Char.is_space c then trimStart s' else s
  | [] => []
  end.

Definition trimEnd (s : jsstring) : jsstring := rev (trimStart (rev s)).

Definition trim (s : jsstring) : jsstring := trimEnd (trimStart s).

(** [s.split(sep)] for a one-code-unit separator: never an empty array. *)
Fixpoint split (sep : N) (s : jsstring) : list jsstring :=
  match s with
  | [] => [[]]
  | c :: s' =>
      if (c =? sep)%N then [] :: split sep s'
      else match split sep s' with
           | w :: ws => (c :: w) :: ws
           | [] => [[c]]
           end
  end.

(** [Boolean(s)] for a string: false only for the empty one. *)
Definition truthy_string (s : jsstring) : bool :=
  match s with [] => false | _ => true end.

(** [Number::toString] on the array lengths that occur here: the decimal
    numeral. *)
Definition Number_toString (n : nat) : jsstring := str (pretty n).

(** ** Regular expressions *)

Module RegExp.

(** The members of a bracket class; a pattern character is the class
    of that one character. *)
Inductive class_atom :=
| CChar (c : N)            (* a literal character *)
| CRange (lo hi : N)       (* lo-hi *)
| CDigit                   (* \d *)
| CSpace.                  (* \s *)

Inductive regex :=
| Empty                                           (* the empty alternative *)
| Chr (cs : list class_atom)                      (* character or class *)
| Seq (a b : regex)
| Alt (a b : regex)                               (* a|b *)
| Rep (a : regex) (min : nat) (max : option nat)  (* greedy a{min,max} *)
| Grp (n : nat) (a : regex)                       (* n-th capturing group *)
| WordB                                           (* \b *)
| Bol                                             (* ^ *)
| Eol.                                            (* $ *)

(** Membership with the [i] flag: some member of the class canonicalizes
    to the canonicalized input. For a range this is decided on the input
    and its two case variants. *)
Definition atom_mem (a : class_atom) (ch : N) : bool :=
  match a with
  | CChar c => (Char.canonicalize c =? Char.canonicalize ch)%N
  | CRange lo hi =>
      Char.in_range lo hi ch || Char.in_range lo hi (Char.upper ch)
      || Char.in_range lo hi (Char.lower ch)
  | CDigit => Char.is_digit ch
  | CSpace => Char.is_space ch
  end.

Definition class_mem (cs : list class_atom) (ch : N) : bool :=
  existsb (fun a => atom_mem a ch) cs.

(** The capturing groups inside a term: a quantifier resets them at
    each iteration. *)
Fixpoint groups (r : regex) : list nat :=
  match r with
  | Seq a b | Alt a b => groups a ++ groups b
  | Rep a _ _ => groups a
  | Grp n a => n :: groups a
  | _ => []
  end.

(** The matcher state: the end index and the captures, each a pair of
    a start and an end index into the input. *)
Record State := mkState {
  endIndex : nat;
  captures : gmap nat (nat * nat)
}.

Definition MatchResult := option State.
Definition Continuation := State → MatchResult.
Definition Matcher := State → Continuation → MatchResult.

Definition clear_groups (gs : list nat) (x : State) : State :=
  mkState (endIndex x) (foldr delete (captures x) gs).

(** [RepeatMatcher]. The fuel bounds the number of iterations: the [min]
    mandatory ones, then one per code unit left, since an iteration
    past the mandatory ones that consumes nothing fails (step 2.b).
    Lemma [compile_Rep_fuel] below shows that it never runs out. *)
Fixpoint RepeatMatcher (fuel : nat) (m : Matcher) (min : nat)
    (max : option nat) (gs : list nat) (x : State) (c : Continuation)
    : MatchResult :=
  match max, fuel with
  | Some O, _ => c x
  | _, O => c x
  | _, S fuel' =>
      let d : Continuation := fun y =>
        if (min =? 0) && (endIndex y =? endIndex x) then None
        else RepeatMatcher fuel' m (pred min) (pred <$> max) gs y c in
      let xr := clear_groups gs x in
      if min =? 0 then
        match m xr d with
        | Some z => Some z
        | None => c x
        end
      else m xr d
  end.

Section Matching.

Variable input : jsstring.

Definition is_word_at (e : nat) : bool :=
  match input !! e with
  | Some ch => Char.is_word ch
  | None => false
  end.

(** [\b]: exactly one of the code units before and at [e] is a word
    character. *)
Definition word_boundary (e : nat) : bool :=
  let a := match e with O => false | S e' => is_word_at e' end in
  let b := is_word_at e in
  xorb a b.

Fixpoint compile (r : regex) (x : State) (c : Continuation) : MatchResult :=
  match r with
  | Empty => c x
  | Chr cs =>
      match input !! endIndex x with
      | Some ch =>
          if class_mem cs ch
          then c (mkState (S (endIndex x)) (captures x))
          else None
      | None => None
      end
  | Seq a b => compile a x (fun y => compile b y c)
  | Alt a b =>
      match compile a x c with
      | Some z => Some z
      | None => compile b x c
      end
  | Rep a min max =>
      RepeatMatcher (min + (length input - endIndex x)) (compile a)
        min max (groups a) x c
  | Grp n a =>
      compile a x (fun y =>
        c (mkState (endIndex y)
             (<[n := (endIndex x, endIndex y)]> (captures y))))
  | WordB => if word_boundary (endIndex x) then c x else None
  | Bol => if endIndex x =? 0 then c x else None
  | Eol => if endIndex x =? length input then c x else None
  end.

(** The match of the pattern at start index [i]. *)
Definition match_at (r : regex) (i : nat) : MatchResult :=
  compile r (mkState i ∅) Some.

End Matching.

(** The result of [exec]: where the match starts and ends, and the
    captures. *)
Record Match := mkMatch {
  m_input : jsstring;
  m_index : nat;
  m_end : nat;
  m_captures : gmap nat (nat * nat)
}.

(** [RegExpBuiltinExec] without the [g] and [y] flags: the first start
    index, from 0 to the length of the input, at which the pattern
    matches. *)
Fixpoint search (r : regex) (input : jsstring) (starts : list nat)
    : option Match :=
  match starts with
  | [] => None
  | i :: rest =>
      match match_at input r i with
      | Some y => Some (mkMatch input i (endIndex y) (captures y))
      | None => search r input rest
      end
  end.

Definition exec (r : regex) (input : jsstring) : option Match :=
  search r input (seq 0 (S (length input))).

Definition test (r : regex) (input : jsstring) : bool :=
  if exec r input is Some _ then true else false.

(** [m[0]]: the matched substring. *)
Definition matched (m : Match) : jsstring :=
  substring (m_input m) (m_index m) (m_end m).

(** The substring of group [n >= 1]; [None] is JavaScript's
    [undefined]. *)
Definition capture (m : Match) (n : nat) : option jsstring :=
  match m_captures m !! n with
  | Some (i, j) => Some (substring (m_input m) i j)
  | None => None
  end.

(** [m[n]] at its TypeScript type, [string]. An unset group is read as
    the empty string; the groups this program reads are set in every
    match (lemmas [time_groups_set] and [day_group_set] below). *)
Definition group (m : Match) (n : nat) : jsstring :=
  default [] (capture m n).

(** [s.replace(r, '')] without the [g] flag: the first match is cut
    out. *)
Definition remove_first (r : regex) (s : jsstring) : jsstring :=
  match exec r s with
  | Some m => take (m_index m) s ++ drop (m_end m) s
  | None => s
  end.

(** A literal word as a sequence of pattern characters. *)
Fixpoint lit (w : jsstring) : regex :=
  match w with
  | [] => Empty
  | [c] => Chr [CChar c]
  | c :: w' => Seq (Chr [CChar c]) (lit w')
  end.

Definition opt (a : regex) : regex := Rep a 0 (Some 1).
Definition star (a : regex) : regex := Rep a 0 None.
Definition plus (a : regex) : regex := Rep a 1 None.

Fixpoint alts (rs : list regex) : regex :=
  match rs with
  | [] => Empty
  | [r] => r
  | r :: rs' => Alt r (alts rs')
  end.

Fixpoint seqs (rs : list regex) : regex :=
  match rs with
  | [] => Empty
  | [r] => r
  | r :: rs' => Seq r (seqs rs')
  end.

End RegExp.

(** ** The heuristic line parser (client/src/lib/ocrUtils.ts) *)

Import RegExp.

Definition digit : regex := Chr [CDigit].
Definition space : regex := Chr [CSpace].

(** [(?:AM|PM)] *)
Definition am_pm : regex := Alt (lit (str "AM")) (lit (str "PM")).

(** [\d{1,2}:\d{2}] *)
Definition hh_mm : regex :=
  seqs [Rep digit 1 (Some 2); Chr [CChar 58]; Rep digit 2 (Some 2)].

(** [/(\d{1,2}:\d{2})\s*(?:AM|PM)?\s*[-–—to]+\s*(\d{1,2}:\d{2})\s*(?:AM|PM)?/i];
    the class holds the hyphen, U+2013, U+2014, [t] and [o]. *)
Definition timePattern : regex :=
  seqs [Grp 1 hh_mm; star space; opt am_pm; star space;
        plus (Chr [CChar 45; CChar 8211; CChar 8212; CChar 116; CChar 111]);
        star space; Grp 2 hh_mm; star space; opt am_pm].

Definition weekdays : list string :=
  ["monday"; "tuesday"; "wednesday"; "thursday"; "friday"; "saturday";
   "sunday"]%string.

(** [/\b(monday|tuesday|wednesday|thursday|friday|saturday|sunday)\b/i] *)
Definition dayPattern : regex :=
  seqs [WordB; Grp 1 (alts (map (fun w => lit (str w)) weekdays)); WordB].

(** [/\b(?:room|lab|hall|lecture)\s*[a-z]?[-\s]?(\d+[a-z]?)\b/i] *)
Definition roomPattern : regex :=
  seqs [WordB;
        alts [lit (str "room"); lit (str "lab"); lit (str "hall");
              lit (str "lecture")];
        star space; opt (Chr [CRange 97 122]); opt (Chr [CChar 45; CSpace]);
        Grp 1 (Seq (plus digit) (opt (Chr [CRange 97 122])));
        WordB].

(** [/header|table|schedule/i] *)
Definition noisePattern : regex :=
  alts [lit (str "header"); lit (str "table"); lit (str "schedule")].

Record entry := mkEntry {
  title : jsstring;
  day : jsstring;
  startTime : jsstring;
  endTime : jsstring;
  location : jsstring
}.

(** The body of the [forEach] callback: [entries] is the array built so
    far, the result is the array after the callback. *)
Definition process_line (entries : list entry) (line : jsstring) : list entry :=
  if (length line <? 5) || test noisePattern line then entries
  else
    match exec timePattern line with
    | None => entries
    | Some timeMatch =>
        let startTime := group timeMatch 1 in
        let endTime := group timeMatch 2 in
        let day :=
          match exec dayPattern line with
          | Some dayMatch =>
              toUpperCase (charAt (group dayMatch 1) 0)
              ++ toLowerCase (slice_from (group dayMatch 1) 1)
          | None => str "Monday"
          end in
        let location :=
          match exec roomPattern line with
          | Some roomMatch => matched roomMatch
          | None => []
          end in
        let title :=
          trim (remove_first roomPattern
                  (remove_first dayPattern (remove_first timePattern line))) in
        let title :=
          if truthy_string title then title
          else str "Class " ++ Number_toString (length entries + 1) in
        entries ++ [mkEntry title day startTime endTime location]
    end.

(** [ocrText.split('\n').map(line => line.trim()).filter(Boolean)] *)
Definition lines_of (ocrText : jsstring) : list jsstring :=
  List.filter truthy_string (map trim (split 10 ocrText)).

Definition parseOCRToTimetable (ocrText : jsstring) : list entry :=
  fold_left process_line (lines_of ocrText) [].

(** ** The [/api/ocr] route (server routes) *)

#[local] Unset Elimination Schemes.

(** A value produced by [JSON.parse]. A finite number is kept as an
    integer: the code only asks whether a number is zero, and a fraction
    behaves as a nonzero integer does. [JInf] is [Infinity] or
    [-Infinity], which [JSON.parse] gives for a numeral beyond the range
    of a double, such as [1e999]. *)
Inductive json :=
| JNull
| JBool (b : bool)
| JNum (n : Z)
| JStr (s : jsstring)
| JArr (l : list json)
| JObj (o : gmap jsstring json)
| JInf (negative : bool).

#[local] Set Elimination Schemes.

(** What reading a property can give besides a JSON value: [undefined],
    or the built-in method [Array.prototype.entries]. *)
Inductive value :=
| undefined
| builtin
| val (j : json).

(** [Boolean(v)]: [undefined], [null], [false], [0] and [""] are falsy,
    everything else, an empty array included, is truthy. *)
Definition truthy (v : value) : bool :=
  match v with
  | undefined => false
  | builtin => true
  | val JNull => false
  | val (JBool b) => b
  | val (JNum n) => negb (n =? 0)%Z
  | val (JStr s) => truthy_string s
  | val (JArr _) => true
  | val (JObj _) => true
  | val (JInf _) => true
  end.

(** [a || b] *)
Definition or_else (a b : value) : value := if truthy a then a else b.

(** An own property of a parsed object; [undefined] when there is none. *)
Definition own (o : gmap jsstring json) (k : jsstring) : value :=
  match o !! k with
  | Some j => val j
  | None => undefined
  end.

(** [parsedResponse.key] for one of the four keys the route reads; [None]
    is the [TypeError] of reading a property of [null]. An object gives
    its own property; an array inherits [entries] from its prototype;
    nothing else has any of the four. *)
Definition get (parsed : json) (key : jsstring) : option value :=
  match parsed with
  | JNull => None
  | JObj o => Some (own o key)
  | JArr _ =>
      Some (if decide (key = str "entries") then builtin else undefined)
  | _ => Some undefined
  end.

(** [parsedResponse.entries || parsedResponse.timetable ||
    parsedResponse.schedule || parsedResponse.classes || []] *)
Definition pick (parsed : json) : option value :=
  a ← get parsed (str "entries");
  if truthy a then Some a else
  b ← get parsed (str "timetable");
  if truthy b then Some b else
  c ← get parsed (str "schedule");
  if truthy c then Some c else
  d ← get parsed (str "classes");
  Some (or_else d (val (JArr []))).

(** What the inner [try] block meets. The vision service, [JSON.parse]
    and the serialiser behind [res.json] belong to the environment, so
    what they do is an input of the route. [res.json] is called inside
    the [try]: when [JSON.stringify] throws on the answer (a [RangeError],
    on a value nested deeper than the stack allows), that is caught like
    every other throw. *)
Inductive vision_reply :=
| Rejected               (* the call throws, or the reply has no choices[0].message *)
| NoContent              (* message.content is null or empty *)
| BadJson                (* JSON.parse(content) throws *)
| Json (parsed : json)   (* JSON.parse(content) returns parsed, and res.json sends the answer made of it *)
| Unsent.                (* JSON.parse(content) returns a value, and res.json throws on the answer made of it *)

(** The inner [try] block; [None] is a throw, caught by [catch (ocrError)]. *)
Definition vision_stage (reply : vision_reply) : option value :=
  match reply with
  | Rejected => None
  | NoContent => None
  | BadJson => None
  | Json parsed => pick parsed
  | Unsent => None
  end.

(** The array literal of the [catch (ocrError)] branch. *)
Definition FallbackEntrySet : list entry :=
  [ {| day := str "Monday"; startTime := str "09:00"; endTime := str "10:30";
       title := str "Mathematics"; location := str "Room 101" |};
    {| day := str "Monday"; startTime := str "11:00"; endTime := str "12:30";
       title := str "Physics"; location := str "Lab 3" |};
    {| day := str "Tuesday"; startTime := str "09:00"; endTime := str "10:30";
       title := str "Computer Science"; location := str "Room 205" |};
    {| day := str "Wednesday"; startTime := str "13:00"; endTime := str "14:30";
       title := str "Economics"; location := str "Hall B" |};
    {| day := str "Thursday"; startTime := str "15:00"; endTime := str "16:30";
       title := str "History"; location := str "Room 110" |};
    {| day := str "Friday"; startTime := str "10:00"; endTime := str "11:30";
       title := str "English Literature"; location := str "Room 302" |} ].

(** An entry as the JSON object the route sends. *)
Definition json_of_entry (e : entry) : json :=
  JObj (list_to_map
    [(str "day", JStr (day e)); (str "startTime", JStr (startTime e));
     (str "endTime", JStr (endTime e)); (str "title", JStr (title e));
     (str "location", JStr (location e))]).

Definition json_of_entries (es : list entry) : value :=
  val (JArr (map json_of_entry es)).

(** [z.object({ imageData: z.string().min(1),
                enhanceResults: z.boolean().optional() }).parse(req.body)],
    with the default [enhanceResults = true] of the destructuring; [None]
    is the [ZodError]. *)
Definition schema_parse (body : json) : option (jsstring * bool) :=
  match body with
  | JObj o =>
      match o !! str "imageData" with
      | Some (JStr (c :: s)) =>
          match o !! str "enhanceResults" with
          | None => Some (c :: s, true)
          | Some (JBool b) => Some (c :: s, b)
          | Some _ => None
          end
      | _ => None
      end
  | _ => None
  end.

Inductive response :=
| Ok200 (result : value)    (* res.status(200).json({ result }) *)
| BadRequest400             (* { message: "Invalid image data", errors } *)
| ServerError500.           (* { message: "OCR processing failed" } *)

(** [router.post("/ocr", ...)] *)
Definition ocr_route (body : json) (reply : vision_reply) : response :=
  match schema_parse body with
  | None => BadRequest400
  | Some (imageData, enhanceResults) =>
      match vision_stage reply with
      | Some result => Ok200 result
      | None => Ok200 (json_of_entries FallbackEntrySet)
      end
  end.

(** ** The specification's wording, for comparison with the code *)

Module Spec.

Definition keys : list jsstring :=
  [str "entries"; str "timetable"; str "schedule"; str "classes"].

(** "check each key in that priority order and use the first that is
    present and is an array, defaulting to an empty array if none
    match". *)
Fixpoint first_array (o : gmap jsstring json) (ks : list jsstring)
    : list json :=
  match ks with
  | [] => []
  | k :: ks' =>
      match o !! k with
      | Some (JArr l) => l
      | _ => first_array o ks'
      end
  end.

(** "... or if the payload is not valid JSON": [None] is an invalid
    payload. *)
Definition adapter (payload : option json) : list json :=
  match payload with
  | Some (JObj o) => first_array o keys
  | _ => []
  end.

(** The ordering policy of the orchestrator: the vision entries if there
    are any, otherwise the entries of the heuristic parser on the
    recognized text if there are any, otherwise the fallback set. *)
Definition extract (vision : list entry) (recognized : jsstring)
    : list entry :=
  match vision with
  | _ :: _ => vision
  | [] =>
      match parseOCRToTimetable recognized with
      | [] => FallbackEntrySet
      | parsed => parsed
      end
  end.

Definition canonical_days : list jsstring :=
  [str "Monday"; str "Tuesday"; str "Wednesday"; str "Thursday";
   str "Friday"; str "Saturday"; str "Sunday"].

(** [^[0-2]?[0-9]:[0-5][0-9]$] *)
Definition time_format : regex :=
  seqs [Bol; opt (Chr [CRange 48 50]); Chr [CRange 48 57]; Chr [CChar 58];
        Chr [CRange 48 53]; Chr [CRange 48 57]; Eol].

(** "day in the seven canonical weekday names; startTime/endTime match
    the pattern; title is non-empty". *)
Definition valid_entry (e : entry) : bool :=
  bool_decide (day e ∈ canonical_days)
  && test time_format (startTime e) && test time_format (endTime e)
  && truthy_string (title e).

End Spec.

(** ** Notions used to state the properties *)

(** The value of the first key, in the given order, that is truthy. *)
Fixpoint first_truthy (o : gmap jsstring json) (ks : list jsstring)
    : option value :=
  match ks with
  | [] => None
  | k :: ks' => if truthy (own o k) then Some (own o k) else first_truthy o ks'
  end.

(** The replies on which the inner [try] block throws. *)
Definition vision_fails (reply : vision_reply) : Prop :=
  reply = Rejected ∨ reply = NoContent ∨ reply = BadJson ∨ reply = Json JNull
  ∨ reply = Unsent.

(** A 200 answer whose result is an array with at least one element. *)
Definition nonempty_result (r : response) : Prop :=
  ∃ j l, r = Ok200 (val (JArr (j :: l))).

(** The number of elements of the result array of a 200 answer. *)
Definition result_length (r : response) : option nat :=
  match r with
  | Ok200 (val (JArr l)) => Some (length l)
  | _ => None
  end.

(** A request body that passes validation. *)
Definition image_request : json :=
  JObj {[ str "imageData" := JStr (str "data:image/png;base64,iVBORw0KGgo=") ]}.

(** *** A relational reading of the matcher

    [sem r x y]: the term [r] can take the matcher from state [x] to
    state [y]. It forgets the priorities of the backtracking matcher
    (which alternative or how many iterations are tried first), so it
    holds of every state [compile] hands to its continuation. *)

Module Sem.

Import RegExp.

(** Every quantifier has [min <= max]: [a{2,1}] is a syntax error. *)
Fixpoint wf (r : regex) : bool :=
  match r with
  | Seq a b | Alt a b => wf a && wf b
  | Rep a min max =>
      wf a && match max with Some k => min <=? k | None => true end
  | Grp _ a => wf a
  | _ => true
  end.

Fixpoint iter (R : State → State → Prop) (n : nat) (x y : State) : Prop :=
  match n with
  | O => y = x
  | S n' => ∃ z, R x z ∧ iter R n' z y
  end.

Definition within (n : nat) (max : option nat) : Prop :=
  match max with Some k => n ≤ k | None => True end.

(** What a matcher owes its continuation: a result of the matcher is a
    result of the continuation on a state the relation allows. *)
Definition sound (m : Matcher) (R : State → State → Prop) : Prop :=
  ∀ x c z, m x c = Some z → ∃ y, R x y ∧ c y = Some z.

Section Input.

Variable input : jsstring.

Fixpoint sem (r : regex) (x y : State) : Prop :=
  match r with
  | Empty => y = x
  | Chr cs =>
      ∃ ch, input !! endIndex x = Some ch ∧ class_mem cs ch = true
            ∧ y = mkState (S (endIndex x)) (captures x)
  | Seq a b => ∃ z, sem a x z ∧ sem b z y
  | Alt a b => sem a x y ∨ sem b x y
  | Rep a min max =>
      ∃ n, min ≤ n ∧ within n max
           ∧ iter (fun x' y' => sem a (clear_groups (groups a) x') y') n x y
  | Grp n a =>
      ∃ z, sem a x z
           ∧ y = mkState (endIndex z)
                   (<[n := (endIndex x, endIndex z)]> (captures z))
  | WordB => word_boundary input (endIndex x) = true ∧ y = x
  | Bol => endIndex x = 0 ∧ y = x
  | Eol => endIndex x = length input ∧ y = x
  end.

(** A matcher that only looks at what its continuation does on the
    states from [x] on, up to the end of the input. *)
Definition steady (m : Matcher) : Prop :=
  ∀ x c c', endIndex x ≤ length input →
    (∀ y, endIndex x ≤ endIndex y ≤ length input → c y = c' y) →
    m x c = m x c'.

(** The matcher read the code units [l] between [x] and [y]. *)
Definition reads (x y : State) (l : jsstring) : Prop :=
  drop (endIndex x) input = l ++ drop (endIndex y) input
  ∧ endIndex y = endIndex x + length l
  ∧ endIndex y ≤ length input.

End Input.

(** The strings a term can consume, assertions left aside. *)
Fixpoint words (r : regex) (l : jsstring) : Prop :=
  match r with
  | Chr cs => ∃ ch, l = [ch] ∧ class_mem cs ch = true
  | Seq a b => ∃ l1 l2, l = l1 ++ l2 ∧ words a l1 ∧ words b l2
  | Alt a b => words a l ∨ words b l
  | Rep a min max =>
      ∃ ls, l = concat ls ∧ min ≤ length ls ∧ within (length ls) max
            ∧ Forall (words a) ls
  | Grp _ a => words a l
  | Empty | WordB | Bol | Eol => l = []
  end.

(** The bodies of the groups numbered [n] in a term. *)
Fixpoint bodies (n : nat) (r : regex) : list regex :=
  match r with
  | Seq a b | Alt a b => bodies n a ++ bodies n b
  | Rep a _ _ => bodies n a
  | Grp m a => (if decide (m = n) then [a] else []) ++ bodies n a
  | _ => []
  end.

(** Group [n] is set in every match of the term. *)
Fixpoint sets (n : nat) (r : regex) : bool :=
  match r with
  | Seq a b => sets n b || (sets n a && bool_decide (n ∉ groups b))
  | Alt a b => sets n a && sets n b
  | Grp m a => bool_decide (m = n) || sets n a
  | _ => false
  end.

End Sem.

(** *** What the heuristic parser guarantees of an entry *)

(** One or two digits, a colon, two digits. *)
Definition time_token (s : jsstring) : Prop :=
  ∃ h m, s = h ++ 58%N :: m ∧ (length h = 1 ∨ length h = 2) ∧ length m = 2
         ∧ Forall (fun c => Char.is_digit c = true) (h ++ m).

(** Equality of strings up to the case of ASCII letters. *)
Definition same_letters (s w : jsstring) : Prop :=
  Forall2 (fun ch c => Char.canonicalize c = Char.canonicalize ch) s w.

Definition parsed_entry_ok (e : entry) : Prop :=
  day e ∈ Spec.canonical_days ∧ time_token (startTime e)
  ∧ time_token (endTime e) ∧ title e ≠ [].

(** The string [w] occurs in [line], in any mix of cases. *)
Definition occurs_in (w line : jsstring) : Prop :=
  ∃ pre mid post, line = pre ++ mid ++ post ∧ same_letters mid w.

Definition noise_words : list jsstring :=
  [str "header"; str "table"; str "schedule"].

(** What is left of a line once the three patterns are cut out. *)
Definition remainder (line : jsstring) : jsstring :=
  trim (remove_first roomPattern
          (remove_first dayPattern (remove_first timePattern line))).

(** A line the parser makes an entry of, with nothing left for a title. *)
Definition fully_consumed (line : jsstring) : Prop :=
  (length line <? 5) || test noisePattern line = false
  ∧ is_Some (exec timePattern line) ∧ remainder line = [].

(** A value the two readings of "the first key that holds something"
    agree on: an array, or a falsy value. *)
Definition array_or_falsy (v : value) : Prop :=
  (∃ l, v = val (JArr l)) ∨ truthy v = false.

(** Example replies of the vision service. *)
Definition empty_entries : gmap jsstring json :=
  {[ str "entries" := JArr [] ]}.

Definition empty_schedule : gmap jsstring json :=
  {[ str "schedule" := JArr [] ]}.

Definition text_before_array : gmap jsstring json :=
  {[ str "entries" := JStr (str "see timetable");
     str "timetable" := JArr [JObj ∅] ]}.

Definition array_after_blank : gmap jsstring json :=
  {[ str "entries" := JStr [];
     str "timetable" := JArr [JObj ∅] ]}.

(** Example lines of recognized text. *)
Definition calculus_line : jsstring :=
  str "Monday 09:00-10:30 Room 101 Calculus".

Definition consumed_line : jsstring := str "Monday 09:00-10:30 Room 101".

Definition two_consumed_lines : jsstring :=
  consumed_line ++ 10%N :: consumed_line.

Definition calculus_entry : entry :=
  {| day := str "Monday"; startTime := str "09:00"; endTime := str "10:30";
     title := str "Calculus"; location := str "Room 101" |}.

(** *** Further notions on the heuristic parser *)

(** The lines the [forEach] callback makes an entry of: neither short nor
    noise, and with a time range. *)
Definition accepted (line : jsstring) : bool :=
  negb ((length line <? 5) || test noisePattern line)
  && test timePattern line.

(** What an entry holds besides its title. *)
Definition core (e : entry) : jsstring * jsstring * jsstring * jsstring :=
  (day e, startTime e, endTime e, location e).

Definition room_words : list jsstring :=
  [str "room"; str "lab"; str "hall"; str "lecture"].

(** A lower-case word with its first letter in upper case. *)
Definition capitalized (w : jsstring) : jsstring :=
  toUpperCase (take 1 w) ++ drop 1 w.

(** Example texts and lines for the further properties. *)
Definition blank_and_short_text : jsstring :=
  str "  " ++ 10%N :: 9%N :: 10%N :: str " 9-10 " ++ 10%N :: str "8:00".

Definition physics_line : jsstring := str "TUESDAY 9:00 to 10:00 lab-3 Physics".

Definition physics_entry : entry :=
  {| day := str "Tuesday"; startTime := str "9:00"; endTime := str "10:00";
     title := str "Physics"; location := str "lab-3" |}.

(** ** The callers of the route (client) *)

(** A value as it is read back from the JSON text [res.json] makes of
    it: JSON has no numeral for [Infinity], which is written [null]. *)
Fixpoint sent (j : json) : json :=
  match j with
  | JInf _ => JNull
  | JArr l => JArr (map sent l)
  | JObj o => JObj (sent <$> o)
  | _ => j
  end.

(** The body of a 200 answer as the client parses it: [JSON.stringify]
    leaves out a property that holds a function or [undefined]. *)
Definition response_json (result : value) : gmap jsstring json :=
  match result with
  | val j => {[ str "result" := sent j ]}
  | _ => ∅
  end.

(** [response.ok]: a status from 200 to 299. *)
Definition response_ok (r : response) : bool :=
  match r with
  | Ok200 _ => true
  | _ => false
  end.

(** [v.length === 0]: the length of an array or of a string, an own
    [length] property of an object; nothing else has a length that is
    the number 0. *)
Definition length_is_zero (v : value) : bool :=
  match v with
  | val (JArr []) => true
  | val (JStr []) => true
  | val (JObj o) =>
      match o !! str "length" with
      | Some (JNum 0) => true
      | _ => false
      end
  | _ => false
  end.

(** A request that also carries recognized text. *)
Definition recognized_request : json :=
  JObj {[ str "imageData" := JStr (str "data:image/png;base64,iVBORw0KGgo=");
          str "ocrText" := JStr calculus_line ]}.

(** The vision reply [{"entries": [1e999]}]. *)
Definition infinite_row : gmap jsstring json :=
  {[ str "entries" := JArr [JInf false] ]}.

Module Scanner.

(** [JSON.stringify({ imageData, enhanceResults: true })], as the server
    reads it back. *)
Definition request (imageData : jsstring) : json :=
  JObj {[ str "imageData" := JStr imageData;
          str "enhanceResults" := JBool true ]}.

Inductive outcome :=
| SelectImageFirst            (* 'Please select an image first' *)
| ScanComplete (result : value)   (* onScanComplete(data.result) *)
| NoEntriesDetected           (* 'No timetable entries detected. ...' *)
| FailedToProcess.            (* 'Failed to process image. Please try again.' *)

(** [OCRScanner.processImage]. [selectedFile] is [None] when no file is
    selected, [Some None] when [fileToBase64] rejects, and otherwise holds
    the data URL of the file; [fetch] is the network and the server,
    [None] when the request fails. *)
Definition processImage (selectedFile : option (option jsstring))
    (fetch : json → option response) : outcome :=
  match selectedFile with
  | None => SelectImageFirst
  | Some None => FailedToProcess
  | Some (Some imageData) =>
      match fetch (request imageData) with
      | None => FailedToProcess
      | Some response =>
          match response with
          | Ok200 result =>
              let data := response_json result in
              if negb (truthy (own data (str "result")))
                 || length_is_zero (own data (str "result"))
              then NoEntriesDetected
              else ScanComplete (own data (str "result"))
          | _ => FailedToProcess
          end
      end
  end.

End Scanner.

Module Uploader.

(** A [FormData] object has no own enumerable property: [JSON.stringify]
    makes [{}] of it, and spreading it adds nothing. *)
Definition formData : gmap jsstring json := ∅.

(** [apiRequest("POST", url, data)] (client/src/lib/queryClient): in demo
    mode the answer is made up from [data] and a random id and nothing is
    sent; otherwise [data] is sent as JSON and an answer that is not ok
    is thrown. [None] is a throw, the result is the parsed body. *)
Definition apiRequest_POST (demoMode : bool) (newId : Z)
    (data : gmap jsstring json) (fetch : json → option response)
    : option (gmap jsstring json) :=
  if demoMode then Some (data ∪ {[ str "id" := JNum newId ]})
  else
    match fetch (JObj data) with
    | None => None
    | Some response =>
        match response with
        | Ok200 result => Some (response_json result)
        | _ => None
        end
    end.

Inductive outcome :=
| NothingDone                              (* no file or no user *)
| Processed (result : gmap jsstring json)  (* "Timetable processed", onScan(result) *)
| ProcessingFailed.                        (* "Processing failed" *)

(** The users that [AuthProvider] sets (client/src/contexts/AuthContext):
    the four fields it takes from the Firebase user, each a string or
    [null], or the demo user, whose [uid] ends in the time of the login. *)
Definition firebaseUser (uid email displayName photoURL : json)
    : gmap jsstring json :=
  {[ str "uid" := uid; str "email" := email;
     str "displayName" := displayName; str "photoURL" := photoURL ]}.

Definition demoUser (now : nat) : gmap jsstring json :=
  {[ str "uid" := JStr (str "demo-user-" ++ Number_toString now);
     str "email" := JStr (str "demo@example.com");
     str "displayName" := JStr (str "Demo User");
     str "photoURL" := JNull;
     str "isDemo" := JBool true ]}.

(** Whether a JSON value has a string: an object with an own [toString]
    has none (the property is a JSON value, never a function); an array
    joins the strings of its elements. *)
Fixpoint has_string (j : json) : bool :=
  match j with
  | JArr l => forallb has_string l
  | JObj o => bool_decide (o !! str "toString" = None)
  | _ => true
  end.

(** Whether [user.id.toString()] returns; if not it is a [TypeError]:
    [user.id] is [undefined] or [null], or has no string. *)
Definition id_toString (user : gmap jsstring json) : bool :=
  match user !! str "id" with
  | None | Some JNull => false
  | Some j => has_string j
  end.

(** [OCRUploader.handleUpload]. [user] is the user of the auth context,
    [None] for [null]; [ocrText] is what [processImageWithTesseract]
    gives, [None] when it throws. *)
Definition handleUpload (selectedFile : bool)
    (user : option (gmap jsstring json)) (ocrText : option jsstring)
    (demoMode : bool) (newId : Z) (fetch : json → option response) : outcome :=
  match user with
  | None => NothingDone
  | Some user =>
      if negb selectedFile then NothingDone
      else
        match ocrText with
        | None => ProcessingFailed
        | Some _ =>
            if id_toString user then
              match apiRequest_POST demoMode newId formData fetch with
              | Some result => Processed result
              | None => ProcessingFailed
              end
            else ProcessingFailed
        end
  end.

End Uploader.

(** The server behind [fetch], reachable, with a given vision reply. *)
Definition server (reply : vision_reply) (body : json) : option response :=
  Some (ocr_route body reply).

(** The fields of [image_request]. *)
Definition image_fields : gmap jsstring json :=
  {[ str "imageData" := JStr (str "data:image/png;base64,iVBORw0KGgo=") ]}.

(** A body the route accepts, said without the code. *)
Definition valid_body (body : json) : Prop :=
  ∃ o s, body = JObj o ∧ o !! str "imageData" = Some (JStr s) ∧ s ≠ []
    ∧ (o !! str "enhanceResults" = None
       ∨ ∃ b, o !! str "enhanceResults" = Some (JBool b)).

(** ** The timetable view (client/src/components/timetable/TimetableView.tsx) *)

(** [Array.prototype.sort] with a comparator [(a, b) => key(a) - key(b)]
    whose keys are numbers. The sort is stable, so the result is the one
    ordering by key that keeps equal keys in their input order; an
    insertion sort from the right end computes it. *)
Section StableSort.

Variables (A : Type) (key : A → nat).

Fixpoint insert_sorted (x : A) (l : list A) : list A :=
  match l with
  | [] => [x]
  | y :: l' => if key x <=? key y then x :: l else y :: insert_sorted x l'
  end.

Definition stable_sort (l : list A) : list A := foldr insert_sorted [] l.

End StableSort.

Module View.

(** A row of [schedule_entries] (shared/schema.ts) as the client holds
    it. *)
Record ScheduleEntry := mkScheduleEntry {
  id : Z;
  timetableId : Z;
  title : jsstring;
  startTime : jsstring;
  endTime : jsstring;
  day : jsstring;
  location : option jsstring;
  color : option jsstring;
  recurring : option bool;
  notifyBefore : option Z
}.

Definition daysOfWeek : list jsstring :=
  [str "Monday"; str "Tuesday"; str "Wednesday"; str "Thursday";
   str "Friday"; str "Saturday"; str "Sunday"].

(** The value of a decimal numeral. *)
Definition decimal (s : jsstring) : nat :=
  fold_left (fun acc c => 10 * acc + (N.to_nat c - 48)) s 0.

(** [Number(s)] for a string of at most fourteen decimal digits: its
    value, 0 for the empty string. This model does not follow [Number] on
    any other string, and gives [None] there: on some of them [Number]
    is NaN, on others a number (written with a sign, blanks, a point, an
    exponent or another radix, or too long for the minutes below to be
    exact). *)
Definition Number_plain (s : jsstring) : option nat :=
  if (length s <=? 14) && forallb Char.is_digit s
  then Some (decimal s) else None.

(** [aTime[0] * 60 + aTime[1]] for [aTime = startTime.split(':').map(Number)];
    [None] when there is no second part (the sum is NaN) or when
    [Number_plain] does not follow one of the two parts. *)
Definition startMinutes (e : ScheduleEntry) : option nat :=
  match split 58 (startTime e) with
  | h :: m :: _ =>
      match Number_plain h, Number_plain m with
      | Some hours, Some minutes => Some (hours * 60 + minutes)
      | _, _ => None
      end
  | _ => None
  end.

(** The [.sort(...)] of a day's entries. With fewer than two entries the
    comparator is not called. Otherwise the order is followed when
    [startMinutes] gives the minutes of every entry; [None] stands for
    the other inputs, on which the minutes are not followed or are NaN
    (JavaScript leaves the order to the implementation then). *)
Definition sortByStart (l : list ScheduleEntry) : option (list ScheduleEntry) :=
  match l with
  | [] | [_] => Some l
  | _ =>
      if forallb (fun e => bool_decide (is_Some (startMinutes e))) l
      then Some (stable_sort ScheduleEntry
                   (fun e => default 0 (startMinutes e)) l)
      else None
  end.

(** [entries.filter(entry => entry.day === day)] *)
Definition entriesOn (d : jsstring) (entries : list ScheduleEntry)
    : list ScheduleEntry :=
  List.filter (fun e => bool_decide (day e = d)) entries.

(** The callback of [reduce]: [acc[day] = ...; return acc]. *)
Definition groupDay (entries : list ScheduleEntry)
    (acc : option (gmap jsstring (list ScheduleEntry))) (d : jsstring)
    : option (gmap jsstring (list ScheduleEntry)) :=
  match acc, sortByStart (entriesOn d entries) with
  | Some groups, Some sorted => Some (<[d := sorted]> groups)
  | _, _ => None
  end.

(** [daysOfWeek.reduce(..., {})] *)
Definition entriesByDay (entries : list ScheduleEntry)
    : option (gmap jsstring (list ScheduleEntry)) :=
  fold_left (groupDay entries) daysOfWeek (Some ∅).

(** Example rows. *)
Definition row (n : Z) (d t : string) : ScheduleEntry :=
  mkScheduleEntry n 1 (str "Class") (str t) (str "23:59") (str d)
    None None None None.

Definition week : list ScheduleEntry :=
  [row 1 "Monday" "10:00"; row 2 "Monday" "9:00"; row 3 "monday" "8:00";
   row 4 "Friday" "13:30"; row 5 "Monday" "09:00"; row 6 "Friday" "9:15"].

End View.

(** The groups of the example week. *)
Definition week_groups : gmap jsstring (list View.ScheduleEntry) :=
  default ∅ (View.entriesByDay View.week).

(** Two entries in the order of their start times, both of which give
    a number. *)
Definition starts_no_later (a b : View.ScheduleEntry) : Prop :=
  ∃ ka kb, View.startMinutes a = Some ka ∧ View.startMinutes b = Some kb
           ∧ ka ≤ kb.

(** Two entries with start times written as hours, a colon and minutes,
    the first starting no later than the second. *)
Definition minutes_no_later (a b : View.ScheduleEntry) : Prop :=
  ∃ ha ma hb mb,
    View.startTime a = ha ++ 58%N :: ma ∧ View.startTime b = hb ++ 58%N :: mb
    ∧ View.decimal ha * 60 + View.decimal ma
      ≤ View.decimal hb * 60 + View.decimal mb.

(** The entries that start at minute [k]. *)
Definition startingAt (k : nat) (l : list View.ScheduleEntry)
    : list View.ScheduleEntry :=
  List.filter (fun e => bool_decide (View.startMinutes e = Some k)) l.

(** ** Data URLs: [base64ToBlob] *)

Module Base64.

(** Table 1 of RFC 4648. *)
Definition alphabet : jsstring :=
  str "ABCDEFGHIJKLMNOPQRSTUVWXYZabcdefghijklmnopqrstuvwxyz0123456789+/".

(** The letter of a six-bit number, and the number of a letter. *)
Definition letter (n : N) : N := nth (N.to_nat n) alphabet 61%N.

Definition index (c : N) : option N :=
  (fun p => N.of_nat p.1) <$> list_find (fun x => x = c) alphabet.

(** RFC 4648, section 4: three bytes give four six-bit numbers; one or two
    bytes left at the end give two or three, the last one filled with zero
    bits. *)
Fixpoint sextets (bytes : list N) : list N :=
  match bytes with
  | [] => []
  | [a] => [a / 4; a mod 4 * 16]%N
  | [a; b] => [a / 4; a mod 4 * 16 + b / 16; b mod 16 * 4]%N
  | a :: b :: c :: rest =>
      (a / 4 :: a mod 4 * 16 + b / 16 :: b mod 16 * 4 + c / 64 :: c mod 64
         :: sextets rest)%N
  end.

(** The encoding with its [=] padding to a multiple of four letters. *)
Definition encode (bytes : list N) : jsstring :=
  map letter (sextets bytes) ++ replicate ((3 - length bytes mod 3) mod 3) 61%N.

Definition is_ascii_whitespace (c : N) : bool :=
  ((c =? 9) || (c =? 10) || (c =? 12) || (c =? 13) || (c =? 32))%N.

(** Step 2 of forgiving-base64 decode: with a length divisible by four, one
    or two [=] at the end are removed. *)
Definition strip_padding (data : jsstring) : jsstring :=
  if Nat.eqb (length data mod 4) 0 then
    match rev data with
    | c1 :: r1 =>
        if (c1 =? 61)%N then
          match r1 with
          | c2 :: r2 => if (c2 =? 61)%N then rev r2 else rev r1
          | [] => rev r1
          end
        else data
    | [] => data
    end
  else data.

(** Steps 5 to 10: the six bits of each letter are appended to [buffer];
    24 bits are emitted as three bytes; 12 or 18 bits left at the end lose
    their last four or two bits and give one or two bytes. *)
Fixpoint run (data : list N) (buffer : N) (bits : nat) (output : list N)
    : list N :=
  match data with
  | [] =>
      if Nat.eqb bits 12 then output ++ [buffer / 16]%N
      else if Nat.eqb bits 18
           then output ++ [buffer / 4 / 256; buffer / 4 mod 256]%N
           else output
  | n :: data' =>
      let buffer := (buffer * 64 + n)%N in
      if Nat.eqb (bits + 6) 24
      then run data' 0%N 0
             (output ++ [buffer / 65536; buffer / 256 mod 256;
                         buffer mod 256]%N)
      else run data' buffer (bits + 6) output
  end.

(** Forgiving-base64 decode of the HTML standard; [None] is failure. A
    string with a code point above U+FFFF fails whichever way its length is
    counted, so code units are counted. *)
Definition decode (data : jsstring) : option (list N) :=
  let data := List.filter (fun c => negb (is_ascii_whitespace c)) data in
  let data := strip_padding data in
  if Nat.eqb (length data mod 4) 1 then None
  else ns ← mapM index data; Some (run ns 0%N 0 []).

End Base64.

(** [atob(data)]: the argument is converted to a string ([undefined] gives
    "undefined"), the bytes decoded are returned as code units; [None] when
    it throws [InvalidCharacterError]. *)
Definition atob (data : option jsstring) : option jsstring :=
  Base64.decode (default (str "undefined") data).

(** A [Blob]: its bytes and its media type. *)
Record Blob := mkBlob {
  contents : list N;
  type : jsstring;
}.

(** [new Blob(parts, { type })]: a type with a code unit outside U+0020 to
    U+007E is dropped, any other is put in lower case. *)
Definition new_Blob (parts : list (list N)) (type : jsstring) : Blob :=
  mkBlob (concat parts)
         (if forallb (Char.in_range 32 126) type then map Char.lower type else []).

(** A base64 data URL (RFC 2397) of [bytes], the form in which
    [FileReader.readAsDataURL], and so [fileToBase64], gives the contents
    of a file. *)
Definition dataURL (mediatype : jsstring) (bytes : list N) : jsstring :=
  str "data:" ++ mediatype ++ str ";base64," ++ Base64.encode bytes.

(** [ia[i] = v] on a [Uint8Array]: the value modulo 256, [NaN] as 0; an
    index outside the array is ignored. *)
Definition ToUint8 (v : option N) : N := from_option (fun c => c mod 256)%N 0%N v.

(** [s.charCodeAt(i)]; [None] is [NaN]. *)
Definition charCodeAt (s : jsstring) (i : nat) : option N := s !! i.

(** [base64ToBlob]. [ia] is a view of the buffer [ab]: the loop writes the
    buffer the blob is made of. [None] when [atob] throws. *)
Definition base64ToBlob (base64 mimeType : jsstring) : option Blob :=
  byteString ← atob (split 44 base64 !! 1);
  let ab := replicate (length byteString) 0%N in
  let ab := foldl (fun ia i => <[i := ToUint8 (charCodeAt byteString i)]> ia)
              ab (seq 0 (length byteString)) in
  Some (new_Blob [ab] mimeType).

(** The first eight bytes of a PNG file. *)
Definition png_signature : list N := [137; 80; 78; 71; 13; 10; 26; 10]%N.

(** ** The route: properties *)

Section Route.

Implicit Types (o : gmap jsstring json) (body parsed : json)
  (reply : vision_reply).

Lemma pick_object o :
  pick (JObj o) = Some (default (val (JArr [])) (first_truthy o Spec.keys)).
Proof.
  unfold pick, Spec.keys, or_else; simpl.
  repeat (case (truthy _); [reflexivity|]). reflexivity.
Qed.

Lemma ocr_route_valid body reply :
  is_Some (schema_parse body) →
  ocr_route body reply =
    Ok200 (default (json_of_entries FallbackEntrySet) (vision_stage reply)).
Proof.
  intros [[imageData enhance] Hb]. unfold ocr_route. rewrite Hb.
  by destruct (vision_stage reply).
Qed.

Lemma vision_fails_stage reply : vision_fails reply → vision_stage reply = None.
Proof. by intros [-> | [-> | [-> | [-> | ->]]]]. Qed.

Lemma image_request_valid : is_Some (schema_parse image_request).
Proof. by eexists. Qed.

(** The answer is 400 exactly when validation fails, and never 500:
    nothing throws outside the inner [try] once the body is validated. *)
Lemma ocr_route_status body reply :
  (ocr_route body reply = BadRequest400 ↔ schema_parse body = None)
  ∧ ocr_route body reply ≠ ServerError500.
Proof.
  unfold ocr_route. destruct (schema_parse body) as [[imageData enhance]|].
  - by destruct (vision_stage reply).
  - done.
Qed.

End Route.

(** ** The matcher: soundness with respect to its relational reading *)

Section Soundness.

Import RegExp Sem.

Variable input : jsstring.

Implicit Types (r a b : regex) (x y z : State) (c : Continuation).

Abbreviation sem := (sem input).
Abbreviation reads := (reads input).

Lemma RepeatMatcher_sound m R gs fuel :
  sound m R →
  ∀ min max x c z,
    min ≤ fuel → within min max →
    RepeatMatcher fuel m min max gs x c = Some z →
    ∃ n y, min ≤ n ∧ within n max
           ∧ iter (fun x' y' => R (clear_groups gs x') y') n x y
           ∧ c y = Some z.
Proof.
  intros Hm. induction fuel as [|fuel IH]; intros min max x c z Hf Hw H.
  - assert (min = 0) as -> by lia.
    exists 0, x. repeat split; [done| |].
    + by destruct max as [k|]; simpl; [lia|].
    + by destruct max as [[|k]|]; simpl in H.
  - destruct max as [[|k]|]; simpl in H.
    + exists 0, x. simpl in *. repeat split; [lia|lia|done].
    + destruct min as [|min]; simpl in H.
      * destruct (m (clear_groups gs x) _) as [z'|] eqn:E.
        -- apply Hm in E as (y & Hy & Hd).
           destruct (endIndex y =? endIndex x); [done|].
           apply IH in Hd as (n & y' & Hn & Hk & Hi & Hc); simpl; [|lia|lia].
           exists (S n), y'. simpl in *. simplify_eq.
           repeat split; [lia|lia| |done]. by exists y.
        -- exists 0, x. simpl. repeat split; [lia|lia|done].
      * apply Hm in H as (y & Hy & Hd).
        apply IH in Hd as (n & y' & Hn & Hk & Hi & Hc); simpl in *; [|lia|lia].
        exists (S n), y'. simpl. repeat split; [lia|lia| |done]. by exists y.
    + destruct min as [|min]; simpl in H.
      * destruct (m (clear_groups gs x) _) as [z'|] eqn:E.
        -- apply Hm in E as (y & Hy & Hd).
           destruct (endIndex y =? endIndex x); [done|].
           apply IH in Hd as (n & y' & Hn & Hk & Hi & Hc); simpl; [|lia|done].
           exists (S n), y'. simpl in *. simplify_eq.
           repeat split; [lia| |done]. by exists y.
        -- exists 0, x. simpl. repeat split; [lia|done].
      * apply Hm in H as (y & Hy & Hd).
        apply IH in Hd as (n & y' & Hn & Hk & Hi & Hc); simpl in *; [|lia|done].
        exists (S n), y'. simpl. repeat split; [lia| |done]. by exists y.
Qed.

Lemma compile_sound r : wf r = true → sound (compile input r) (sem r).
Proof.
  induction r as [|cs|a IHa b IHb|a IHa b IHb|a IHa min max|n a IHa| | |];
    intros Hwf x c z H; simpl in *.
  - by exists x.
  - destruct (input !! endIndex x) as [ch|] eqn:E; [|done].
    destruct (class_mem cs ch) eqn:Hc; [|done].
    eexists; split; [|exact H]. by exists ch.
  - apply andb_prop in Hwf as [Ha Hb].
    apply (IHa Ha) in H as (y & Hy & H). apply (IHb Hb) in H as (y' & Hy' & H).
    exists y'. split; [by exists y|done].
  - apply andb_prop in Hwf as [Ha Hb].
    destruct (compile input a x c) as [z'|] eqn:E.
    + apply (IHa Ha) in E as (y & Hy & Hc). simplify_eq. exists y. by split; [left|].
    + apply (IHb Hb) in H as (y & Hy & Hc). exists y. by split; [right|].
  - apply andb_prop in Hwf as [Ha Hm].
    apply (RepeatMatcher_sound _ _ _ _ (IHa Ha)) in H
      as (n & y & Hn & Hk & Hi & Hc); [|lia|].
    + exists y. split; [by exists n|done].
    + destruct max as [k|]; simpl; [|done]. by apply Nat.leb_le.
  - apply (IHa Hwf) in H as (y & Hy & Hc).
    eexists; split; [|exact Hc]. by exists y.
  - destruct (word_boundary input (endIndex x)) eqn:E; [|done]. by exists x.
  - destruct (endIndex x =? 0) eqn:E; [|done]. apply Nat.eqb_eq in E. by exists x.
  - destruct (endIndex x =? length input) eqn:E; [|done].
    apply Nat.eqb_eq in E. by exists x.
Qed.

Lemma reads_refl x : endIndex x ≤ length input → reads x x [].
Proof. intros Hx. unfold reads; simpl. split; [done|lia]. Qed.

Lemma reads_trans x y z l1 l2 :
  reads x y l1 → reads y z l2 → reads x z (l1 ++ l2).
Proof.
  intros (H1 & H2 & _) (H3 & H4 & H5). unfold reads.
  rewrite H1, H3, <-app_assoc, length_app. split; [done|lia].
Qed.

Lemma reads_substring x y l :
  reads x y l → substring input (endIndex x) (endIndex y) = l.
Proof.
  intros (H1 & H2 & _). unfold substring. rewrite H1.
  replace (endIndex y - endIndex x) with (length l) by lia.
  by rewrite take_app_length.
Qed.

Lemma iter_reads (R : State → State → Prop) (W : jsstring → Prop) gs n :
  (∀ x y, endIndex x ≤ length input → R x y → ∃ l, reads x y l ∧ W l) →
  ∀ x y, endIndex x ≤ length input →
    iter (fun x' y' => R (clear_groups gs x') y') n x y →
    ∃ ls, reads x y (concat ls) ∧ length ls = n ∧ Forall W ls.
Proof.
  intros HR. induction n as [|n IH]; intros x y Hx H; simpl in H.
  - subst y. exists []. split; [by apply reads_refl|done].
  - destruct H as (z & Hz & Hi).
    apply HR in Hz as (l & Hl & Hw); [|done].
    assert (reads x z l) as Hxz by exact Hl.
    apply IH in Hi as (ls & Hls & Hn & Hf); [|by destruct Hl as (_ & _ & ?)].
    exists (l :: ls). simpl. split; [by eapply reads_trans|].
    split; [by rewrite Hn|by constructor].
Qed.

(** Whatever a term does, it reads some string of its language. *)
Lemma sem_reads r :
  ∀ x y, endIndex x ≤ length input → sem r x y → ∃ l, reads x y l ∧ words r l.
Proof.
  induction r as [|cs|a IHa b IHb|a IHa b IHb|a IHa min max|n a IHa| | |];
    intros x y Hx H; simpl in H.
  - subst y. exists []. by split; [apply reads_refl|].
  - destruct H as (ch & Hch & Hc & ->). exists [ch]. split; [|by exists ch].
    unfold reads; simpl. rewrite (drop_S _ _ _ Hch).
    apply lookup_lt_Some in Hch. split; [done|lia].
  - destruct H as (z & Ha & Hb).
    apply IHa in Ha as (l1 & H1 & W1); [|done].
    apply IHb in Hb as (l2 & H2 & W2); [|by destruct H1 as (_ & _ & ?)].
    exists (l1 ++ l2). split; [by eapply reads_trans|]. by exists l1, l2.
  - destruct H as [H|H]; [apply IHa in H|apply IHb in H]; try done;
      destruct H as (l & Hl & W); exists l; (split; [done|]); [by left|by right].
  - destruct H as (n & Hn & Hk & Hi).
    apply (iter_reads _ _ _ _ IHa) in Hi as (ls & Hls & Hlen & Hf); [|done].
    exists (concat ls). split; [done|]. exists ls. by rewrite Hlen.
  - destruct H as (z & Ha & ->). apply IHa in Ha as (l & Hl & W); [|done].
    by exists l.
  - destruct H as [_ ->]. exists []. by split; [apply reads_refl|].
  - destruct H as [_ ->]. exists []. by split; [apply reads_refl|].
  - destruct H as [_ ->]. exists []. by split; [apply reads_refl|].
Qed.

Lemma sem_bounded r x y :
  endIndex x ≤ length input → sem r x y → endIndex y ≤ length input.
Proof.
  intros Hx H. by apply sem_reads in H as (l & (_ & _ & ?) & _).
Qed.

Lemma lookup_clear_groups gs x n :
  n ∉ gs → captures (clear_groups gs x) !! n = captures x !! n.
Proof.
  unfold clear_groups; simpl. induction gs as [|g gs IH]; intros Hn; [done|].
  simpl. apply not_elem_of_cons in Hn as [Hg Hgs].
  rewrite lookup_delete_ne by done. by apply IH.
Qed.

Lemma lookup_clear_groups_Some gs x n p :
  captures (clear_groups gs x) !! n = Some p → captures x !! n = Some p.
Proof.
  unfold clear_groups; simpl. induction gs as [|g gs IH]; [done|]. simpl.
  intros H. apply lookup_delete_Some in H as [_ H]. by apply IH.
Qed.

(** A term leaves the groups it does not contain as they are. *)
Lemma sem_frame n r :
  ∀ x y, n ∉ groups r → sem r x y → captures y !! n = captures x !! n.
Proof.
  induction r as [|cs|a IHa b IHb|a IHa b IHb|a IHa min max|m a IHa| | |];
    intros x y Hn H; simpl in *.
  - by subst.
  - by destruct H as (ch & _ & _ & ->).
  - apply not_elem_of_app in Hn as [Hna Hnb]. destruct H as (z & Ha & Hb).
    rewrite (IHb _ _ Hnb Hb). by apply IHa.
  - apply not_elem_of_app in Hn as [Hna Hnb].
    destruct H as [H|H]; [by apply IHa|by apply IHb].
  - destruct H as (k & _ & _ & Hi). revert x Hi.
    induction k as [|k IHk]; intros x Hi; simpl in Hi; [by subst|].
    destruct Hi as (z & Hz & Hi). rewrite (IHk _ Hi), (IHa _ _ Hn Hz).
    by apply lookup_clear_groups.
  - apply not_elem_of_cons in Hn as [Hm Hn]. destruct H as (z & Ha & ->).
    simpl. rewrite lookup_insert_ne by done. by apply IHa.
  - by destruct H as [_ ->].
  - by destruct H as [_ ->].
  - by destruct H as [_ ->].
Qed.

(** A group that every match goes through is set at the end. *)
Lemma sem_sets n r :
  ∀ x y, sets n r = true → sem r x y → is_Some (captures y !! n).
Proof.
  induction r as [|cs|a IHa b IHb|a IHa b IHb|a IHa min max|m a IHa| | |];
    intros x y Hs H; simpl in *; try done.
  - destruct H as (z & Ha & Hb). apply orb_prop in Hs as [Hs|Hs].
    + by eapply IHb.
    + apply andb_prop in Hs as [Hs Hn]. apply bool_decide_eq_true in Hn.
      rewrite (sem_frame _ _ _ _ Hn Hb). by eapply IHa.
  - apply andb_prop in Hs as [Hsa Hsb]. destruct H as [H|H]; by eauto.
  - destruct H as (z & Ha & ->). simpl. destruct (decide (m = n)) as [->|Hne].
    + by rewrite lookup_insert_eq.
    + rewrite lookup_insert_ne by done. apply orb_prop in Hs as [Hs|Hs].
      * by apply bool_decide_eq_true in Hs.
      * by eapply IHa.
Qed.

(** A group set at the end was set before or holds a string of the
    language of one of its bodies. *)
Lemma sem_capture n i j r :
  ∀ x y, endIndex x ≤ length input → sem r x y →
    captures y !! n = Some (i, j) →
    captures x !! n = Some (i, j)
    ∨ ∃ a, a ∈ bodies n r ∧ words a (substring input i j).
Proof.
  induction r as [|cs|a IHa b IHb|a IHa b IHb|a IHa min max|m a IHa| | |];
    intros x y Hx H Hc; simpl in H.
  - subst. by left.
  - destruct H as (ch & _ & _ & ->). by left.
  - destruct H as (z & Ha & Hb).
    destruct (IHb _ _ (sem_bounded _ _ _ Hx Ha) Hb Hc) as [Hz|(a' & Hin & Hw)].
    + destruct (IHa _ _ Hx Ha Hz) as [?|(a' & Hin & Hw)]; [by left|].
      right. exists a'. split; [|done]. simpl. apply elem_of_app. by left.
    + right. exists a'. split; [|done]. simpl. apply elem_of_app. by right.
  - destruct H as [H|H].
    + destruct (IHa _ _ Hx H Hc) as [?|(a' & Hin & Hw)]; [by left|].
      right. exists a'. split; [|done]. simpl. apply elem_of_app. by left.
    + destruct (IHb _ _ Hx H Hc) as [?|(a' & Hin & Hw)]; [by left|].
      right. exists a'. split; [|done]. simpl. apply elem_of_app. by right.
  - destruct H as (k & _ & _ & Hi). revert x Hx Hi.
    induction k as [|k IHk]; intros x Hx Hi; simpl in Hi; [subst; by left|].
    destruct Hi as (z & Hz & Hi).
    assert (endIndex z ≤ length input) as Hzb by by eapply sem_bounded; [|done].
    destruct (IHk _ Hzb Hi) as [Hzc|?]; [|by right].
    destruct (IHa (clear_groups (groups a) x) _ Hx Hz Hzc) as [Hxc|?];
      [|by right].
    left. by eapply lookup_clear_groups_Some.
  - destruct H as (z & Ha & ->). simpl in Hc.
    destruct (decide (m = n)) as [->|Hne].
    + rewrite lookup_insert_eq in Hc. simplify_eq. right. exists a.
      split; [simpl; rewrite decide_True by done; by left|].
      apply sem_reads in Ha as (l & Hl & Hw); [|done].
      by rewrite (reads_substring _ _ _ Hl).
    + rewrite lookup_insert_ne in Hc by done.
      destruct (IHa _ _ Hx Ha Hc) as [?|(a' & Hin & Hw)]; [by left|].
      right. exists a'. split; [|done]. simpl. by rewrite decide_False by done.
  - destruct H as [_ ->]. by left.
  - destruct H as [_ ->]. by left.
  - destruct H as [_ ->]. by left.
Qed.

(** *** The fuel of [RepeatMatcher] never runs out

    With the fuel [compile] gives it, and with any larger one, the
    iteration stops before the fuel does: more fuel gives the same result. *)

Lemma sound_fails m R x : sound m R → m x (fun _ => None) = None.
Proof.
  intros Hm. destruct (m x _) as [z|] eqn:E; [|done].
  by apply Hm in E as (y & _ & ?).
Qed.

Lemma RepeatMatcher_steady m gs fuel :
  steady input m →
  ∀ min max x c c', endIndex x ≤ length input →
    (∀ y, endIndex x ≤ endIndex y ≤ length input → c y = c' y) →
    RepeatMatcher fuel m min max gs x c = RepeatMatcher fuel m min max gs x c'.
Proof.
  intros Hm. induction fuel as [|fuel IH]; intros min max x c c' Hx Hc.
  - destruct max as [[|k]|]; simpl; apply Hc; lia.
  - assert (c x = c' x) as Hcx by (apply Hc; lia).
    assert (∀ max', m (clear_groups gs x) (fun y =>
              if (min =? 0) && (endIndex y =? endIndex x) then None
              else RepeatMatcher fuel m (pred min) max' gs y c)
            = m (clear_groups gs x) (fun y =>
              if (min =? 0) && (endIndex y =? endIndex x) then None
              else RepeatMatcher fuel m (pred min) max' gs y c')) as Hd.
    { intros max'. apply Hm; [done|]. simpl. intros y Hy.
      destruct (_ && _); [done|]. apply IH; [lia|].
      intros y' Hy'. apply Hc. lia. }
    destruct max as [[|k]|]; simpl; [done|..]; rewrite Hd, Hcx; done.
Qed.

Lemma compile_steady r : steady input (compile input r).
Proof.
  induction r as [|cs|a IHa b IHb|a IHa b IHb|a IHa min max|n a IHa| | |];
    intros x c c' Hx Hc; simpl.
  - apply Hc. lia.
  - destruct (input !! endIndex x) as [ch|] eqn:E; [|done].
    destruct (class_mem cs ch); [|done]. apply lookup_lt_Some in E.
    apply Hc. simpl. lia.
  - apply IHa; [done|]. intros y Hy. apply IHb; [lia|].
    intros y' Hy'. apply Hc. lia.
  - by rewrite (IHa x c c'), (IHb x c c').
  - by apply RepeatMatcher_steady.
  - apply IHa; [done|]. intros y Hy. apply Hc. simpl. lia.
  - destruct (word_boundary _ _); [|done]. apply Hc. lia.
  - destruct (_ =? 0); [|done]. apply Hc. lia.
  - destruct (_ =? length input); [|done]. apply Hc. lia.
Qed.

Lemma RepeatMatcher_fuel_S m R gs fuel :
  sound m R → steady input m →
  ∀ min max x c, endIndex x ≤ length input →
    min + (length input - endIndex x) ≤ fuel →
    RepeatMatcher fuel m min max gs x c
    = RepeatMatcher (S fuel) m min max gs x c.
Proof.
  intros Hs Hm. induction fuel as [|fuel IH]; intros min max x c Hx Hf.
  - assert (min = 0) as -> by lia.
    assert (m (clear_groups gs x) (fun y =>
              if (0 =? 0) && (endIndex y =? endIndex x) then None
              else RepeatMatcher 0 m (pred 0) (pred <$> max) gs y c) = None)
      as Hnone.
    { etrans; [|apply (sound_fails m R (clear_groups gs x) Hs)].
      apply Hm; [done|]. simpl. intros y Hy.
      rewrite (proj2 (Nat.eqb_eq _ _)); [done|lia]. }
    destruct max as [[|k]|]; simpl; [done|..]; simpl in Hnone;
      by rewrite Hnone.
  - assert (∀ max', m (clear_groups gs x) (fun y =>
              if (min =? 0) && (endIndex y =? endIndex x) then None
              else RepeatMatcher fuel m (pred min) max' gs y c)
            = m (clear_groups gs x) (fun y =>
              if (min =? 0) && (endIndex y =? endIndex x) then None
              else RepeatMatcher (S fuel) m (pred min) max' gs y c)) as Hd.
    { intros max'. apply Hm; [done|]. simpl. intros y Hy.
      destruct (min =? 0) eqn:Hmin; simpl.
      - destruct (endIndex y =? endIndex x) eqn:Hle; [done|].
        apply Nat.eqb_neq in Hle. apply Nat.eqb_eq in Hmin. subst min.
        apply IH; simpl; lia.
      - apply Nat.eqb_neq in Hmin. apply IH; lia. }
    destruct max as [[|k]|]; [done|..].
    + change (RepeatMatcher (S (S fuel)) m min (Some (S k)) gs x c)
        with (if min =? 0
              then match m (clear_groups gs x) (fun y =>
                       if (min =? 0) && (endIndex y =? endIndex x) then None
                       else RepeatMatcher (S fuel) m (pred min)
                              (pred <$> Some (S k)) gs y c) with
                   | Some z => Some z
                   | None => c x
                   end
              else m (clear_groups gs x) (fun y =>
                       if (min =? 0) && (endIndex y =? endIndex x) then None
                       else RepeatMatcher (S fuel) m (pred min)
                              (pred <$> Some (S k)) gs y c)).
      rewrite <-Hd. reflexivity.
    + change (RepeatMatcher (S (S fuel)) m min None gs x c)
        with (if min =? 0
              then match m (clear_groups gs x) (fun y =>
                       if (min =? 0) && (endIndex y =? endIndex x) then None
                       else RepeatMatcher (S fuel) m (pred min)
                              (pred <$> None) gs y c) with
                   | Some z => Some z
                   | None => c x
                   end
              else m (clear_groups gs x) (fun y =>
                       if (min =? 0) && (endIndex y =? endIndex x) then None
                       else RepeatMatcher (S fuel) m (pred min)
                              (pred <$> None) gs y c)).
      rewrite <-Hd. reflexivity.
Qed.

(** The result of a quantifier does not depend on the fuel, from the
    fuel [compile] gives it on. *)
Lemma compile_Rep_fuel a min max x c extra :
  wf a = true → endIndex x ≤ length input →
  RepeatMatcher (min + (length input - endIndex x) + extra)
    (compile input a) min max (groups a) x c
  = compile input (Rep a min max) x c.
Proof.
  intros Hwf Hx. induction extra as [|extra IH].
  - by rewrite Nat.add_0_r.
  - rewrite <-IH, Nat.add_succ_r. symmetry.
    apply (RepeatMatcher_fuel_S _ (sem a)); [by apply compile_sound| |done|lia].
    apply compile_steady.
Qed.

End Soundness.

(** ** What [exec] returns *)

Section Exec.

Import RegExp Sem.

Implicit Types (r : regex) (s : jsstring) (m : Match).

Lemma search_Some r s starts m :
  search r s starts = Some m →
  ∃ i y, i ∈ starts ∧ match_at s r i = Some y
         ∧ m = mkMatch s i (endIndex y) (captures y).
Proof.
  induction starts as [|i starts IH]; simpl; [done|].
  destruct (match_at s r i) as [y|] eqn:E.
  - intros [= <-]. exists i, y. split; [by left|done].
  - intros H. apply IH in H as (i' & y & Hi & Hm & ->).
    exists i', y. split; [by right|done].
Qed.

Lemma search_None r s starts :
  search r s starts = None ↔ ∀ i, i ∈ starts → match_at s r i = None.
Proof.
  induction starts as [|i starts IH]; simpl.
  - split; [|done]. intros _ i Hi. by apply elem_of_nil in Hi.
  - destruct (match_at s r i) as [y|] eqn:E.
    + split; [done|]. intros H. specialize (H i). rewrite E in H.
      by discriminate H; left.
    + rewrite IH. split.
      * intros H j Hj. apply elem_of_cons in Hj as [->|Hj]; by auto.
      * intros H j Hj. apply H. by right.
Qed.

Lemma exec_sem r s m :
  wf r = true → exec r s = Some m →
  m_input m = s ∧ m_index m ≤ length s
  ∧ ∃ y, sem s r (mkState (m_index m) ∅) y
         ∧ m_end m = endIndex y ∧ m_captures m = captures y.
Proof.
  intros Hwf H. apply search_Some in H as (i & y & Hi & Hm & ->). simpl.
  apply elem_of_seq in Hi. split; [done|]. split; [lia|].
  apply (compile_sound _ _ Hwf) in Hm as (y' & Hy & [= ->]). by exists y.
Qed.

(** A group that every match sets holds a string of the language of one
    of its bodies. *)
Lemma exec_group n r s m :
  wf r = true → sets n r = true → exec r s = Some m →
  ∃ g a, capture m n = Some g ∧ a ∈ bodies n r ∧ words a g.
Proof.
  intros Hwf Hs H. apply exec_sem in H as (Hin & Hi & y & Hy & He & Hc); [|done].
  destruct (sem_sets _ _ _ _ _ Hs Hy) as [[i j] Hij].
  unfold capture. rewrite Hc, Hij, Hin.
  destruct (sem_capture s n i j r (mkState (m_index m) ∅) y Hi Hy Hij)
    as [He'|(a & Ha & Hw)]; [done|].
  by exists (substring s i j), a.
Qed.

End Exec.

(** ** The three patterns of the parser *)

Section Patterns.

Import RegExp Sem.

Lemma class_mem_char c ch :
  class_mem [CChar c] ch = true → Char.canonicalize c = Char.canonicalize ch.
Proof.
  unfold class_mem; simpl. rewrite orb_false_r. by intros ?%N.eqb_eq.
Qed.

Lemma canonicalize_colon ch :
  Char.canonicalize 58 = Char.canonicalize ch → ch = 58%N.
Proof.
  unfold Char.canonicalize, Char.upper, Char.is_lower, Char.in_range.
  destruct (N.leb_spec 97 58); destruct (N.leb_spec 58 122);
    destruct (N.leb_spec 97 ch); destruct (N.leb_spec ch 122); simpl; lia.
Qed.

(** A letter of a pattern matches its two cases and nothing else. *)
Lemma canonicalize_letter p ch :
  Char.is_lower p = true → Char.canonicalize p = Char.canonicalize ch →
  Char.lower ch = p ∧ Char.upper ch = Char.upper p.
Proof.
  unfold Char.canonicalize, Char.upper, Char.lower, Char.is_lower,
    Char.is_upper, Char.in_range.
  destruct (N.leb_spec 97 p); destruct (N.leb_spec p 122); simpl; [|done..].
  intros _.
  destruct (N.leb_spec 97 ch); destruct (N.leb_spec ch 122);
    destruct (N.leb_spec 65 ch); destruct (N.leb_spec ch 90); simpl; lia.
Qed.

Lemma words_lit w l : words (lit w) l → same_letters l w.
Proof.
  revert l. induction w as [|c w IH]; intros l H; simpl in H.
  - subst. constructor.
  - destruct w as [|c' w].
    + destruct H as (ch & -> & H). apply class_mem_char in H.
      by repeat constructor.
    + destruct H as (l1 & l2 & -> & (ch & -> & H) & H2).
      apply class_mem_char in H. constructor; [done|]. by apply IH.
Qed.

Lemma words_alts_lit ws l :
  words (alts (map lit ws)) l → ws ≠ [] → ∃ w, w ∈ ws ∧ same_letters l w.
Proof.
  induction ws as [|w ws IH]; [done|]. intros H _. simpl in H.
  destruct ws as [|w' ws].
  - exists w. split; [by left|by apply words_lit].
  - destruct H as [H|H].
    + exists w. split; [by left|by apply words_lit].
    + destruct (IH H) as (w0 & Hin & Hw); [done|].
      exists w0. split; [by right|done].
Qed.

Lemma words_class_iter cs ls :
  Forall (words (Chr cs)) ls →
  length (concat ls) = length ls
  ∧ Forall (fun ch => class_mem cs ch = true) (concat ls).
Proof.
  induction 1 as [|l ls (ch & -> & Hch) _ [IH1 IH2]]; simpl; [done|].
  split; [by rewrite IH1|by constructor].
Qed.

Lemma class_mem_digit ch : class_mem [CDigit] ch = true → Char.is_digit ch = true.
Proof. unfold class_mem; simpl. by rewrite orb_false_r. Qed.

Lemma words_hh_mm l : words hh_mm l → time_token l.
Proof.
  intros (h & l2 & -> & (hs & -> & Hmin & Hmax & Hh)
            & (l3 & m & -> & (ch & -> & Hch) & (ms & -> & Hm1 & Hm2 & Hm))).
  unfold within in *. apply class_mem_char, canonicalize_colon in Hch as ->.
  apply words_class_iter in Hh as [Hhl Hhd], Hm as [Hml Hmd].
  exists (concat hs), (concat ms). split; [done|].
  split; [lia|]. split; [lia|]. apply Forall_app. split.
  - eapply Forall_impl; [exact Hhd|]. intros c. apply class_mem_digit.
  - eapply Forall_impl; [exact Hmd|]. intros c. apply class_mem_digit.
Qed.

(** Groups 1 and 2 of [timePattern] are set in every match and each
    holds a time token. *)
Lemma time_groups_set s m :
  exec timePattern s = Some m →
  ∃ t1 t2, capture m 1 = Some t1 ∧ capture m 2 = Some t2
           ∧ time_token t1 ∧ time_token t2.
Proof.
  intros H.
  destruct (exec_group 1 timePattern s m eq_refl eq_refl H)
    as (t1 & a1 & H1 & Ha1 & W1).
  destruct (exec_group 2 timePattern s m eq_refl eq_refl H)
    as (t2 & a2 & H2 & Ha2 & W2).
  apply list_elem_of_singleton in Ha1 as ->, Ha2 as ->.
  exists t1, t2. repeat split; by try apply words_hh_mm.
Qed.

(** Group 1 of [dayPattern] is set in every match and holds a weekday
    name in some mix of cases. *)
Lemma day_group_set s m :
  exec dayPattern s = Some m →
  ∃ g w, capture m 1 = Some g ∧ w ∈ weekdays ∧ same_letters g (str w).
Proof.
  intros H.
  destruct (exec_group 1 dayPattern s m eq_refl eq_refl H)
    as (g & a & Hg & Ha & W).
  apply list_elem_of_singleton in Ha as ->.
  rewrite <-(map_map str lit) in W.
  apply words_alts_lit in W as (w & Hin & Hw); [|done].
  apply list_elem_of_fmap in Hin as (w0 & -> & Hin). by exists g, w0.
Qed.

Lemma same_letters_case g w :
  same_letters g w → Forall (fun c => Char.is_lower c = true) w →
  toLowerCase g = w ∧ toUpperCase g = toUpperCase w.
Proof.
  unfold toLowerCase, toUpperCase.
  induction 1 as [|ch c g w Hc _ IH]; intros Hw; [done|].
  apply Forall_cons in Hw as [Hl Hw]. cbn [map].
  destruct (canonicalize_letter _ _ Hl Hc) as [-> ->].
  destruct (IH Hw) as [-> ->]. done.
Qed.

Lemma forallb_Forall (P : N → bool) l :
  forallb P l = true → Forall (fun c => P c = true) l.
Proof.
  intros H. apply Forall_forall. intros c Hc.
  by apply (proj1 (forallb_forall P l) H), list_elem_of_In.
Qed.

Lemma day_group_letters s m :
  exec dayPattern s = Some m →
  toUpperCase (charAt (group m 1) 0) ++ toLowerCase (slice_from (group m 1) 1)
    ∈ Spec.canonical_days.
Proof.
  intros H. apply day_group_set in H as (g & w & Hg & Hw & Hl).
  unfold group. rewrite Hg. unfold charAt, substring, slice_from.
  cbn [from_option id]. replace (1 - 0) with 1 by done. rewrite drop_0.
  assert (Forall (fun c => Char.is_lower c = true) (str w)) as Hlow.
  { unfold weekdays in Hw. repeat (apply elem_of_cons in Hw as [->|Hw]);
      [by apply forallb_Forall..|by apply elem_of_nil in Hw]. }
  destruct (same_letters_case _ _ (Forall2_take _ _ _ 1 Hl)) as [_ ->];
    [by apply Forall_take|].
  destruct (same_letters_case _ _ (Forall2_drop _ _ _ 1 Hl)) as [-> _];
    [by apply Forall_drop|].
  unfold weekdays in Hw. repeat (apply elem_of_cons in Hw as [->|Hw]);
    [vm_compute; set_solver..|by apply elem_of_nil in Hw].
Qed.

End Patterns.

(** ** The heuristic parser: properties *)

Section Parser.

Import RegExp Sem.

Implicit Types (line ocrText : jsstring) (entries : list entry) (e : entry).

Lemma process_line_skip entries line :
  (length line <? 5) || test noisePattern line = true →
  process_line entries line = entries.
Proof. intros H. unfold process_line. by rewrite H. Qed.

Lemma process_line_no_time entries line :
  exec timePattern line = None → process_line entries line = entries.
Proof.
  intros H. unfold process_line. rewrite H. by destruct (_ || _).
Qed.

(** A line that adds nothing can be dropped from the batch. *)
Lemma fold_process_line_drop line before after :
  (∀ entries, process_line entries line = entries) →
  fold_left process_line (before ++ line :: after) []
  = fold_left process_line (before ++ after) [].
Proof. intros H. rewrite !fold_left_app. simpl. by rewrite H. Qed.

Lemma process_line_push entries line :
  process_line entries line = entries
  ∨ ∃ e, process_line entries line = entries ++ [e] ∧ parsed_entry_ok e.
Proof.
  unfold process_line. destruct (_ || _); [by left|].
  destruct (exec timePattern line) as [timeMatch|] eqn:Ht; [|by left].
  right. eexists. split; [done|].
  apply time_groups_set in Ht as (t1 & t2 & H1 & H2 & Ht1 & Ht2).
  unfold parsed_entry_ok, group; simpl. rewrite H1, H2. simpl.
  split; [|split; [done|split; [done|]]].
  - destruct (exec dayPattern line) as [dayMatch|] eqn:Hd.
    + by apply day_group_letters in Hd.
    + unfold Spec.canonical_days. by left.
  - destruct (truthy_string _) eqn:Hr; [by destruct (trim _)|done].
Qed.

Lemma fold_process_line_ok lines entries :
  Forall parsed_entry_ok entries →
  Forall parsed_entry_ok (fold_left process_line lines entries).
Proof.
  revert entries. induction lines as [|line lines IH]; intros entries H; [done|].
  simpl. apply IH.
  destruct (process_line_push entries line) as [->|(e & -> & He)]; [done|].
  apply Forall_app. by split; [|constructor].
Qed.

Lemma state_eta (x : State) :
  mkState (endIndex x + 0) (captures x) = x.
Proof. destruct x; simpl. f_equal. lia. Qed.

Lemma drop_cons_lookup (input : jsstring) i ch rest :
  drop i input = ch :: rest → input !! i = Some ch.
Proof. intros H. by rewrite <-(Nat.add_0_r i), <-lookup_drop, H. Qed.

Lemma drop_cons_drop (input : jsstring) i ch rest :
  drop i input = ch :: rest → drop (S i) input = rest.
Proof.
  intros H. replace (S i) with (1 + i) by lia.
  by rewrite (Nat.add_comm 1 i), <-drop_drop, H.
Qed.

(** A literal matches where its letters stand, in any mix of cases. *)
Lemma compile_lit input w :
  ∀ mid rest x c,
    drop (endIndex x) input = mid ++ rest → same_letters mid w →
    compile input (lit w) x c
    = c (mkState (endIndex x + length w) (captures x)).
Proof.
  induction w as [|c0 w IH]; intros mid rest x c Hd Hl.
  - simpl. by rewrite state_eta.
  - apply Forall2_cons_inv_r in Hl as (ch & mid' & Hc & Hl & ->).
    simpl in Hd.
    assert (compile input (Chr [CChar c0]) x
              (fun y => compile input (lit w) y c)
            = compile input (lit w) (mkState (S (endIndex x)) (captures x)) c)
      as Hstep.
    { simpl. rewrite (drop_cons_lookup _ _ _ _ Hd).
      unfold class_mem; simpl. by rewrite Hc, N.eqb_refl. }
    apply drop_cons_drop in Hd as Hd'.
    destruct w as [|c1 w].
    + apply Forall2_nil_inv_r in Hl as ->. simpl in Hstep. simpl.
      rewrite Nat.add_1_r. exact Hstep.
    + change (lit (c0 :: c1 :: w)) with (Seq (Chr [CChar c0]) (lit (c1 :: w))).
      change (compile input (Seq ?a ?b) x c)
        with (compile input a x (fun y => compile input b y c)).
      rewrite Hstep.
      rewrite (IH mid' rest (mkState (S (endIndex x)) (captures x)) c Hd' Hl).
      simpl. do 2 f_equal. lia.
Qed.

Lemma match_at_noise input w i :
  w ∈ noise_words →
  (∃ mid rest, drop i input = mid ++ rest ∧ same_letters mid w) →
  is_Some (match_at input noisePattern i).
Proof.
  intros Hw (mid & rest & Hd & Hl). unfold match_at, noisePattern.
  change (alts [?a; ?b; ?d]) with (Alt a (Alt b d)).
  change (compile input (Alt ?a ?b) ?x ?c)
    with (match compile input a x c with
          | Some z => Some z
          | None => compile input b x c
          end).
  unfold noise_words in Hw.
  apply elem_of_cons in Hw as [->|Hw].
  { by rewrite (compile_lit _ _ mid rest). }
  destruct (compile input (lit (str "header")) _ _); [done|].
  change (compile input (Alt ?a ?b) ?x ?c)
    with (match compile input a x c with
          | Some z => Some z
          | None => compile input b x c
          end).
  apply elem_of_cons in Hw as [->|Hw].
  { by rewrite (compile_lit _ _ mid rest). }
  destruct (compile input (lit (str "table")) _ _); [done|].
  apply list_elem_of_singleton in Hw as ->.
  by rewrite (compile_lit _ _ mid rest).
Qed.

(** [/header|table|schedule/i.test(line)] holds of every line one of
    the three words occurs in. *)
Lemma test_noise line w :
  w ∈ noise_words → occurs_in w line → test noisePattern line = true.
Proof.
  intros Hw (pre & mid & post & -> & Hl). unfold test.
  destruct (exec noisePattern _) as [m|] eqn:E; [done|]. exfalso.
  unfold exec in E.
  pose proof (proj1 (search_None _ _ _) E (length pre)) as Hn.
  destruct (match_at_noise (pre ++ mid ++ post) w (length pre) Hw) as [y Hy].
  - exists mid, post. by rewrite drop_app_length.
  - rewrite Hn in Hy; [done|]. apply elem_of_seq. rewrite length_app. lia.
Qed.

(** The matcher on inputs worked out by hand from ECMA-262. *)

Example exec_en_dash :
  map (fun e => (startTime e, endTime e, title e))
    (parseOCRToTimetable (str "8:15 " ++ 8211%N :: str " 9:45 Chemistry"))
  = [(str "8:15", str "9:45", str "Chemistry")].
Proof. vm_compute. reflexivity. Qed.

Example exec_narrows_hours :
  map (fun e => (startTime e, endTime e))
    (parseOCRToTimetable (str "123:45 to 6:789 Art"))
  = [(str "23:45", str "6:78")].
Proof. vm_compute. reflexivity. Qed.

Example exec_am_pm :
  map (fun e => (startTime e, endTime e, title e))
    (parseOCRToTimetable (str "2:00 pm - 3:00 PM Drama"))
  = [(str "2:00", str "3:00", str "Drama")].
Proof. vm_compute. reflexivity. Qed.

Example day_any_case :
  map day (parseOCRToTimetable
             (str "MONDAY 9:00-10:00" ++ 10%N :: str "tuesDAY 9:00-10:00"
              ++ 10%N :: str "Mondays 9:00-10:00"))
  = [str "Monday"; str "Tuesday"; str "Monday"].
Proof. vm_compute. reflexivity. Qed.

Example room_with_letter :
  map (fun e => (location e, title e))
    (parseOCRToTimetable (str "Friday 10:00-11:30 Biology hall B12"))
  = [(str "hall B12", str "Biology")].
Proof. vm_compute. reflexivity. Qed.

End Parser.

(** ** The claims of the specification *)

Section Claims.

Import RegExp.

Implicit Types (o : gmap jsstring json) (body parsed : json)
  (reply : vision_reply) (line ocrText : jsstring) (entries : list entry).

Lemma first_truthy_app o before ks :
  Forall (fun k => truthy (own o k) = false) before →
  first_truthy o (before ++ ks) = first_truthy o ks.
Proof. induction 1 as [|k before Hk _ IH]; simpl; [done|]. by rewrite Hk. Qed.

Lemma first_truthy_first_array o ks :
  Forall (fun k => array_or_falsy (own o k)) ks →
  default (val (JArr [])) (first_truthy o ks) = val (JArr (Spec.first_array o ks)).
Proof.
  induction 1 as [|k ks Hk _ IH]; simpl; [done|]. unfold own in *.
  destruct Hk as [[l Hl]|Hf].
  - destruct (o !! k) as [j|]; [|done]. by simplify_eq.
  - rewrite Hf. destruct (o !! k) as [[]|]; by try done.
Qed.

Lemma fallback_result_length :
  result_length (Ok200 (json_of_entries FallbackEntrySet)) = Some 6.
Proof. reflexivity. Qed.

(** C1, as the specification states it, fails: a valid request is answered with the
    empty array when the vision reply is [{"entries": []}]. *)
Lemma ocr_route_can_return_empty :
  is_Some (schema_parse image_request)
  ∧ ocr_route image_request (Json (JObj empty_entries)) = Ok200 (val (JArr []))
  ∧ ¬ nonempty_result (ocr_route image_request (Json (JObj empty_entries))).
Proof.
  split; [apply image_request_valid|]. split; [reflexivity|].
  intros (j & l & H). vm_compute in H. discriminate H.
Qed.

(** C1 (amended): every request that passes validation is answered 200 with a
    result. The result is the six-entry fallback set, hence non-empty, when
    the inner [try] throws: the vision call fails, the reply has no
    content, the content does not parse or parses to [null], or the
    answer cannot be serialised. When the vision reply is an object and
    the answer is sent, the result is the value of the first truthy key
    among entries, timetable, schedule, classes, and the empty array when
    none of them is truthy. *)
Theorem ocr_route_result_cases body failing o :
  is_Some (schema_parse body) →
  vision_fails failing →
  (∀ reply, ∃ result, ocr_route body reply = Ok200 result)
  ∧ ocr_route body failing = Ok200 (json_of_entries FallbackEntrySet)
  ∧ nonempty_result (ocr_route body failing)
  ∧ result_length (ocr_route body failing) = Some 6
  ∧ ocr_route body Unsent = Ok200 (json_of_entries FallbackEntrySet)
  ∧ ocr_route body (Json (JObj o))
    = Ok200 (default (val (JArr [])) (first_truthy o Spec.keys)).
Proof.
  intros Hb Hf. split; [intros reply; rewrite (ocr_route_valid _ _ Hb); by eexists|].
  rewrite !(ocr_route_valid _ _ Hb), (vision_fails_stage _ Hf).
  split; [done|]. split; [by eexists _, _|]. split; [done|]. split; [done|].
  simpl. by rewrite pick_object.
Qed.

Lemma ocr_route_result_cases_witness :
  (∀ reply, ∃ result, ocr_route image_request reply = Ok200 result)
  ∧ ocr_route image_request BadJson = Ok200 (json_of_entries FallbackEntrySet)
  ∧ nonempty_result (ocr_route image_request BadJson)
  ∧ result_length (ocr_route image_request BadJson) = Some 6
  ∧ ocr_route image_request Unsent = Ok200 (json_of_entries FallbackEntrySet)
  ∧ ocr_route image_request (Json (JObj text_before_array))
    = Ok200 (default (val (JArr []))
               (first_truthy text_before_array Spec.keys)).
Proof.
  apply (ocr_route_result_cases image_request BadJson text_before_array).
  - exists (str "data:image/png;base64,iVBORw0KGgo=", true). reflexivity.
  - right. right. left. reflexivity.
Defined.

(** C3, as the specification states it, fails: the empty array under [schedule] is
    returned to the caller, and the fallback set is not. *)
Lemma empty_array_is_returned :
  is_Some (schema_parse image_request)
  ∧ ocr_route image_request (Json (JObj empty_schedule)) = Ok200 (val (JArr []))
  ∧ ocr_route image_request (Json (JObj empty_schedule))
    ≠ Ok200 (json_of_entries FallbackEntrySet).
Proof.
  split; [apply image_request_valid|]. split; [reflexivity|].
  intros H. apply (f_equal result_length) in H. vm_compute in H. discriminate H.
Qed.

(** C3 (amended): if the vision reply is an object in which a recognised key
    holds an empty array and no key before it in the order entries,
    timetable, schedule, classes holds a truthy value, the route returns
    that empty array to the caller; no further stage runs. *)
Theorem empty_array_passes_through body o before k after :
  is_Some (schema_parse body) →
  Spec.keys = before ++ k :: after →
  Forall (fun k' => truthy (own o k') = false) before →
  o !! k = Some (JArr []) →
  ocr_route body (Json (JObj o)) = Ok200 (val (JArr [])).
Proof.
  intros Hb Hk Hbefore Ho. rewrite (ocr_route_valid _ _ Hb). simpl.
  rewrite pick_object, Hk, (first_truthy_app _ _ _ Hbefore). simpl.
  unfold own. by rewrite Ho.
Qed.

Lemma empty_array_passes_through_witness :
  ocr_route image_request (Json (JObj empty_schedule)) = Ok200 (val (JArr [])).
Proof.
  apply (empty_array_passes_through image_request empty_schedule
           [str "entries"; str "timetable"] (str "schedule") [str "classes"]).
  - exists (str "data:image/png;base64,iVBORw0KGgo=", true). reflexivity.
  - reflexivity.
  - repeat constructor.
  - reflexivity.
Defined.

(** C4: a request that carries recognized text the heuristic parser makes
    an entry of, with the vision call failing. The claim has the parser
    run over the text and its entry returned; the route, whose [catch]
    branch is headed "Fallback to pattern-based extraction if OpenAI
    fails", returns the six-entry literal and not that entry. With the
    vision reply [{"entries": []}] it returns the empty array. *)
Theorem ocr_route_has_no_heuristic_stage :
  is_Some (schema_parse recognized_request)
  ∧ parseOCRToTimetable calculus_line = [calculus_entry]
  ∧ Spec.extract [] calculus_line = [calculus_entry]
  ∧ ocr_route recognized_request Rejected
    = Ok200 (json_of_entries FallbackEntrySet)
  ∧ ocr_route recognized_request Rejected
    ≠ Ok200 (json_of_entries (Spec.extract [] calculus_line))
  ∧ ocr_route recognized_request (Json (JObj empty_entries))
    = Ok200 (val (JArr []))
  ∧ ocr_route recognized_request (Json (JObj empty_entries))
    ≠ Ok200 (json_of_entries (Spec.extract [] calculus_line)).
Proof.
  split; [by eexists|]. split; [by vm_compute|]. split; [by vm_compute|].
  split; [reflexivity|]. split; [|split; [reflexivity|]];
    intros H; apply (f_equal result_length) in H; vm_compute in H;
    discriminate H.
Qed.

(** C5: when the inner [try] throws (the vision call fails, the reply has
    no content, the content does not parse or parses to [null], or the
    answer cannot be serialised) the route answers with the fallback set:
    an array of six objects with the keys day, startTime, endTime, title
    and location, the first of them Monday 09:00-10:30 Mathematics in
    Room 101. *)
Theorem vision_failure_gives_fallback body reply :
  is_Some (schema_parse body) →
  vision_fails reply →
  ocr_route body reply
  = Ok200 (val (JArr
      [ JObj {[ str "day" := JStr (str "Monday");
                str "startTime" := JStr (str "09:00");
                str "endTime" := JStr (str "10:30");
                str "title" := JStr (str "Mathematics");
                str "location" := JStr (str "Room 101") ]};
        JObj {[ str "day" := JStr (str "Monday");
                str "startTime" := JStr (str "11:00");
                str "endTime" := JStr (str "12:30");
                str "title" := JStr (str "Physics");
                str "location" := JStr (str "Lab 3") ]};
        JObj {[ str "day" := JStr (str "Tuesday");
                str "startTime" := JStr (str "09:00");
                str "endTime" := JStr (str "10:30");
                str "title" := JStr (str "Computer Science");
                str "location" := JStr (str "Room 205") ]};
        JObj {[ str "day" := JStr (str "Wednesday");
                str "startTime" := JStr (str "13:00");
                str "endTime" := JStr (str "14:30");
                str "title" := JStr (str "Economics");
                str "location" := JStr (str "Hall B") ]};
        JObj {[ str "day" := JStr (str "Thursday");
                str "startTime" := JStr (str "15:00");
                str "endTime" := JStr (str "16:30");
                str "title" := JStr (str "History");
                str "location" := JStr (str "Room 110") ]};
        JObj {[ str "day" := JStr (str "Friday");
                str "startTime" := JStr (str "10:00");
                str "endTime" := JStr (str "11:30");
                str "title" := JStr (str "English Literature");
                str "location" := JStr (str "Room 302") ]} ])).
Proof.
  intros Hb Hf. rewrite (ocr_route_valid _ _ Hb), (vision_fails_stage _ Hf).
  vm_compute. reflexivity.
Qed.

Lemma vision_failure_gives_fallback_witness :
  ocr_route image_request BadJson
  = Ok200 (val (JArr
      [ JObj {[ str "day" := JStr (str "Monday");
                str "startTime" := JStr (str "09:00");
                str "endTime" := JStr (str "10:30");
                str "title" := JStr (str "Mathematics");
                str "location" := JStr (str "Room 101") ]};
        JObj {[ str "day" := JStr (str "Monday");
                str "startTime" := JStr (str "11:00");
                str "endTime" := JStr (str "12:30");
                str "title" := JStr (str "Physics");
                str "location" := JStr (str "Lab 3") ]};
        JObj {[ str "day" := JStr (str "Tuesday");
                str "startTime" := JStr (str "09:00");
                str "endTime" := JStr (str "10:30");
                str "title" := JStr (str "Computer Science");
                str "location" := JStr (str "Room 205") ]};
        JObj {[ str "day" := JStr (str "Wednesday");
                str "startTime" := JStr (str "13:00");
                str "endTime" := JStr (str "14:30");
                str "title" := JStr (str "Economics");
                str "location" := JStr (str "Hall B") ]};
        JObj {[ str "day" := JStr (str "Thursday");
                str "startTime" := JStr (str "15:00");
                str "endTime" := JStr (str "16:30");
                str "title" := JStr (str "History");
                str "location" := JStr (str "Room 110") ]};
        JObj {[ str "day" := JStr (str "Friday");
                str "startTime" := JStr (str "10:00");
                str "endTime" := JStr (str "11:30");
                str "title" := JStr (str "English Literature");
                str "location" := JStr (str "Room 302") ]} ])).
Proof.
  apply (vision_failure_gives_fallback image_request BadJson).
  - exists (str "data:image/png;base64,iVBORw0KGgo=", true). reflexivity.
  - right. right. left. reflexivity.
Defined.

(** C9, as the specification states it, fails twice: a truthy value that is not an
    array is taken ahead of a later key that holds an array, and a payload
    that is not valid JSON gives the fallback set, not the empty array. *)
Lemma pick_takes_first_truthy :
  vision_stage (Json (JObj text_before_array))
    = Some (val (JStr (str "see timetable")))
  ∧ vision_stage (Json (JObj text_before_array))
    ≠ Some (val (JArr (Spec.adapter (Some (JObj text_before_array)))))
  ∧ ocr_route image_request BadJson
    ≠ Ok200 (val (JArr (Spec.adapter None))).
Proof.
  split; [reflexivity|]. split.
  - intros H. vm_compute in H. discriminate H.
  - intros H. apply (f_equal result_length) in H. vm_compute in H.
    discriminate H.
Qed.

(** C9 (amended): of the keys entries, timetable, schedule, classes, in that
    order, the route takes the first whose value is truthy, array or not,
    and the empty array when none is; this is the first key that holds an
    array whenever each of the four holds an array or a falsy value. That
    is the answer when it is sent; a payload that is not valid JSON, and
    an answer that cannot be serialised, give the fallback set. *)
Theorem pick_first_truthy body o arrays :
  is_Some (schema_parse body) →
  Forall (fun k => array_or_falsy (own arrays k)) Spec.keys →
  ocr_route body (Json (JObj o))
    = Ok200 (default (val (JArr [])) (first_truthy o Spec.keys))
  ∧ ocr_route body (Json (JObj arrays))
    = Ok200 (val (JArr (Spec.adapter (Some (JObj arrays)))))
  ∧ ocr_route body BadJson = Ok200 (json_of_entries FallbackEntrySet)
  ∧ ocr_route body Unsent = Ok200 (json_of_entries FallbackEntrySet).
Proof.
  intros Hb Hk. rewrite !(ocr_route_valid _ _ Hb). simpl.
  rewrite !pick_object. split; [done|]. split; [|done].
  unfold Spec.adapter. by rewrite (first_truthy_first_array _ _ Hk).
Qed.

Lemma pick_first_truthy_witness :
  ocr_route image_request (Json (JObj text_before_array))
    = Ok200 (default (val (JArr []))
               (first_truthy text_before_array Spec.keys))
  ∧ ocr_route image_request (Json (JObj array_after_blank))
    = Ok200 (val (JArr (Spec.adapter (Some (JObj array_after_blank)))))
  ∧ ocr_route image_request BadJson = Ok200 (json_of_entries FallbackEntrySet)
  ∧ ocr_route image_request Unsent = Ok200 (json_of_entries FallbackEntrySet).
Proof.
  apply (pick_first_truthy image_request text_before_array array_after_blank).
  - exists (str "data:image/png;base64,iVBORw0KGgo=", true). reflexivity.
  - repeat (apply Forall_cons_2;
              [first [left; eexists; reflexivity | right; reflexivity]|]).
    apply Forall_nil_2.
Defined.

(** C2, as the specification states it, fails: the parser takes [10:75] for an end
    time, which does not match [^[0-2]?[0-9]:[0-5][0-9]$]. *)
Lemma parsed_time_out_of_range :
  parseOCRToTimetable (str "Monday 09:00-10:75 Calculus")
  = [ {| title := str "Calculus"; day := str "Monday";
         startTime := str "09:00"; endTime := str "10:75";
         location := [] |} ]
  ∧ test Spec.time_format (str "10:75") = false
  ∧ forallb Spec.valid_entry
      (parseOCRToTimetable (str "Monday 09:00-10:75 Calculus")) = false.
Proof. repeat split; vm_compute; reflexivity. Qed.

(** C2 (amended): every entry the heuristic parser produces has one of the
    seven canonical weekday names as its day, a start and an end time made
    of one or two digits, a colon and two digits, and a non-empty title;
    every entry of the fallback set has a canonical day, times that match
    [^[0-2]?[0-9]:[0-5][0-9]$] and a non-empty title. An array the vision
    reply holds under [entries] is not validated: when the answer is sent
    it is that array, which the caller reads back with every infinite
    number in it turned to [null]; when the answer cannot be serialised
    it is the fallback set. *)
Theorem returned_entries_wellformed ocrText e body o l :
  e ∈ parseOCRToTimetable ocrText →
  is_Some (schema_parse body) →
  o !! str "entries" = Some (JArr l) →
  (day e ∈ Spec.canonical_days ∧ time_token (startTime e)
   ∧ time_token (endTime e) ∧ title e ≠ [])
  ∧ forallb Spec.valid_entry FallbackEntrySet = true
  ∧ ocr_route body (Json (JObj o)) = Ok200 (val (JArr l))
  ∧ response_json (val (JArr l)) = {[ str "result" := JArr (map sent l) ]}
  ∧ ocr_route body Unsent = Ok200 (json_of_entries FallbackEntrySet).
Proof.
  intros He Hb Ho. split; [|split; [by vm_compute|]].
  - assert (Forall parsed_entry_ok (parseOCRToTimetable ocrText)) as Hall
      by by apply fold_process_line_ok.
    by apply (proj1 (Forall_forall _ _) Hall).
  - rewrite !(ocr_route_valid _ _ Hb). simpl. rewrite pick_object.
    unfold Spec.keys. simpl. unfold own. by rewrite Ho.
Qed.

Lemma returned_entries_wellformed_witness :
  (day calculus_entry ∈ Spec.canonical_days
   ∧ time_token (startTime calculus_entry)
   ∧ time_token (endTime calculus_entry) ∧ title calculus_entry ≠ [])
  ∧ forallb Spec.valid_entry FallbackEntrySet = true
  ∧ ocr_route image_request (Json (JObj infinite_row)) 
    = Ok200 (val (JArr [JInf false]))
  ∧ response_json (val (JArr [JInf false]))
    = {[ str "result" := JArr (map sent [JInf false]) ]}
  ∧ ocr_route image_request Unsent = Ok200 (json_of_entries FallbackEntrySet).
Proof.
  apply (returned_entries_wellformed calculus_line calculus_entry
           image_request infinite_row [JInf false]).
  - vm_compute. left.
  - exists (str "data:image/png;base64,iVBORw0KGgo=", true). reflexivity.
  - reflexivity.
Defined.

(** C6: the line "Monday 09:00-10:30 Room 101 Calculus" gives exactly one
    entry, Monday 09:00-10:30 Calculus in Room 101; cutting out the time
    range, the day and the room in turn and trimming leaves "Calculus". *)
Theorem parse_calculus_line :
  parseOCRToTimetable calculus_line
  = [ {| day := str "Monday"; startTime := str "09:00";
         endTime := str "10:30"; title := str "Calculus";
         location := str "Room 101" |} ]
  ∧ remove_first timePattern calculus_line = str "Monday Room 101 Calculus"
  ∧ remove_first dayPattern (str "Monday Room 101 Calculus")
    = str " Room 101 Calculus"
  ∧ remove_first roomPattern (str " Room 101 Calculus") = str "  Calculus"
  ∧ trim (str "  Calculus") = str "Calculus".
Proof. repeat split; vm_compute; reflexivity. Qed.

(** C7: a line in which [timePattern] finds no match adds no entry: the
    array is left as it is, and the batch is the one parsed without the
    line. "Room 101" alone gives no entry. *)
Theorem line_without_time_range_skipped line :
  exec timePattern line = None →
  (∀ entries, process_line entries line = entries)
  ∧ (∀ before after,
       fold_left process_line (before ++ line :: after) []
       = fold_left process_line (before ++ after) [])
  ∧ exec timePattern (str "Room 101") = None
  ∧ parseOCRToTimetable (str "Room 101") = [].
Proof.
  intros H.
  assert (∀ entries, process_line entries line = entries) as Hskip
    by (intros entries; by apply process_line_no_time).
  split; [done|]. split; [|by vm_compute].
  intros before after. by apply fold_process_line_drop.
Qed.

Lemma line_without_time_range_skipped_witness :
  (∀ entries, process_line entries (str "Room 101") = entries)
  ∧ (∀ before after,
       fold_left process_line (before ++ str "Room 101" :: after) []
       = fold_left process_line (before ++ after) [])
  ∧ exec timePattern (str "Room 101") = None
  ∧ parseOCRToTimetable (str "Room 101") = [].
Proof.
  apply (line_without_time_range_skipped (str "Room 101")).
  vm_compute. reflexivity.
Defined.

Lemma process_line_consumed entries line :
  fully_consumed line →
  ∃ e, process_line entries line = entries ++ [e]
       ∧ title e = str "Class " ++ Number_toString (length entries + 1).
Proof.
  intros (Hf & [m Hm] & Hr). unfold process_line, remainder in *.
  rewrite Hf, Hm, Hr. by eexists.
Qed.

(** C8: a line that is parsed and leaves nothing once the time range, the
    day and the room are cut out gets the title "Class N", N being one
    more than the number of entries made so far; two such lines in a row
    get "Class 1" and "Class 2", in input order. *)
Theorem class_n_title_synthesis line1 line2 :
  fully_consumed line1 → fully_consumed line2 →
  (∀ entries, ∃ e,
     process_line entries line1 = entries ++ [e]
     ∧ title e = str "Class " ++ Number_toString (length entries + 1))
  ∧ map title (fold_left process_line [line1; line2] [])
    = [str "Class 1"; str "Class 2"]
  ∧ map title (parseOCRToTimetable two_consumed_lines)
    = [str "Class 1"; str "Class 2"].
Proof.
  intros H1 H2. split; [|split; [|by vm_compute]].
  - intros entries. by apply process_line_consumed.
  - destruct (process_line_consumed [] _ H1) as (e1 & He1 & Ht1).
    destruct (process_line_consumed ([] ++ [e1]) _ H2) as (e2 & He2 & Ht2).
    cbn [fold_left]. rewrite He1, He2, !map_app. cbn [map app].
    by rewrite Ht1, Ht2.
Qed.

Lemma class_n_title_synthesis_witness :
  (∀ entries, ∃ e,
     process_line entries consumed_line = entries ++ [e]
     ∧ title e = str "Class " ++ Number_toString (length entries + 1))
  ∧ map title (fold_left process_line [consumed_line; consumed_line] [])
    = [str "Class 1"; str "Class 2"]
  ∧ map title (parseOCRToTimetable two_consumed_lines)
    = [str "Class 1"; str "Class 2"].
Proof.
  apply (class_n_title_synthesis consumed_line consumed_line);
    (split; [vm_compute; reflexivity|]);
    (split; [vm_compute; eexists; reflexivity|vm_compute; reflexivity]).
Defined.

(** C10: a line in which "header", "table" or "schedule" occurs, in any
    mix of upper-case and lower-case letters, adds no entry, whatever else
    it holds: the array is left as it is and the batch is the one parsed
    without the line.
    "Schedule Monday 09:00-10:30 Calculus" gives no entry although it has
    a time range. *)
Theorem noise_line_skipped line w :
  w ∈ noise_words → occurs_in w line →
  (∀ entries, process_line entries line = entries)
  ∧ (∀ before after,
       fold_left process_line (before ++ line :: after) []
       = fold_left process_line (before ++ after) [])
  ∧ is_Some (exec timePattern (str "Schedule Monday 09:00-10:30 Calculus"))
  ∧ parseOCRToTimetable (str "Schedule Monday 09:00-10:30 Calculus") = [].
Proof.
  intros Hw Ho.
  assert (∀ entries, process_line entries line = entries) as Hskip.
  { intros entries. apply process_line_skip.
    by rewrite (test_noise _ _ Hw Ho), orb_true_r. }
  split; [done|].
  split; [|split; [vm_compute; eexists; reflexivity|by vm_compute]].
  intros before after. by apply fold_process_line_drop.
Qed.

Lemma noise_line_skipped_witness :
  (∀ entries,
     process_line entries (str "Schedule Monday 09:00-10:30 Calculus")
     = entries)
  ∧ (∀ before after,
       fold_left process_line
         (before ++ str "Schedule Monday 09:00-10:30 Calculus" :: after) []
       = fold_left process_line (before ++ after) [])
  ∧ is_Some (exec timePattern (str "Schedule Monday 09:00-10:30 Calculus"))
  ∧ parseOCRToTimetable (str "Schedule Monday 09:00-10:30 Calculus") = [].
Proof.
  apply (noise_line_skipped (str "Schedule Monday 09:00-10:30 Calculus")
           (str "schedule")).
  - right. right. left.
  - exists [], (str "Schedule"), (str " Monday 09:00-10:30 Calculus").
    split; [reflexivity|]. repeat constructor.
Defined.

End Claims.

(** ** Further properties of the matcher *)

Section Ranges.

Import RegExp Sem.

Variable input : jsstring.

Implicit Types (r a b : regex) (x y z : State).

Lemma sem_forward r x y :
  endIndex x ≤ length input → sem input r x y →
  endIndex x ≤ endIndex y ≤ length input.
Proof.
  intros Hx H. apply sem_reads in H as (l & (_ & ? & ?) & _); [lia|done].
Qed.

Lemma iter_forward a k :
  ∀ x y, endIndex x ≤ length input →
    iter (fun x' y' => sem input a (clear_groups (groups a) x') y') k x y →
    endIndex x ≤ endIndex y ≤ length input.
Proof.
  induction k as [|k IH]; intros x y Hx H; simpl in H; [subst; lia|].
  destruct H as (z & Hz & Hi).
  pose proof (sem_forward a (clear_groups (groups a) x) z Hx Hz) as Hzb.
  simpl in Hzb. pose proof (IH _ _ (proj2 Hzb) Hi). lia.
Qed.

(** A group set at the end was set before, or lies between the two
    states. *)
Lemma sem_capture_range n i j r :
  ∀ x y, endIndex x ≤ length input → sem input r x y →
    captures y !! n = Some (i, j) →
    captures x !! n = Some (i, j)
    ∨ (endIndex x ≤ i ∧ i ≤ j ∧ j ≤ endIndex y).
Proof.
  induction r as [|cs|a IHa b IHb|a IHa b IHb|a IHa min max|m a IHa| | |];
    intros x y Hx H Hc; simpl in H.
  - subst. by left.
  - destruct H as (ch & _ & _ & ->). by left.
  - destruct H as (z & Ha & Hb).
    pose proof (sem_forward _ _ _ Hx Ha) as Hz.
    pose proof (sem_forward b z y (proj2 Hz) Hb) as Hy.
    destruct (IHb _ _ (proj2 Hz) Hb Hc) as [Hzc|?]; [|right; lia].
    destruct (IHa _ _ Hx Ha Hzc) as [?|?]; [by left|right; lia].
  - destruct H as [H|H]; [by eapply IHa|by eapply IHb].
  - destruct H as (k & _ & _ & Hi). revert x Hx Hi.
    induction k as [|k IHk]; intros x Hx Hi; simpl in Hi; [subst; by left|].
    destruct Hi as (z & Hz & Hi).
    pose proof (sem_forward a (clear_groups (groups a) x) z Hx Hz) as Hzb.
    simpl in Hzb. pose proof (iter_forward a k z y (proj2 Hzb) Hi) as Hyb.
    destruct (IHk _ (proj2 Hzb) Hi) as [Hzc|?]; [|right; lia].
    destruct (IHa (clear_groups (groups a) x) _ Hx Hz Hzc) as [Hxc|?];
      [|right; simpl in *; lia].
    left. by eapply lookup_clear_groups_Some.
  - destruct H as (z & Ha & ->). simpl in *.
    pose proof (sem_forward _ _ _ Hx Ha) as Hz.
    destruct (decide (m = n)) as [->|Hne].
    + rewrite lookup_insert_eq in Hc. simplify_eq. right. lia.
    + rewrite lookup_insert_ne in Hc by done. by eapply IHa.
  - destruct H as [_ ->]. by left.
  - destruct H as [_ ->]. by left.
  - destruct H as [_ ->]. by left.
Qed.

Lemma substring_infix i j :
  i ≤ j → j ≤ length input →
  input = take i input ++ substring input i j ++ drop j input.
Proof.
  intros Hij Hj. unfold substring.
  rewrite <-(take_drop i input) at 1. f_equal.
  rewrite <-(take_drop (j - i) (drop i input)) at 1. f_equal.
  rewrite drop_drop. f_equal. lia.
Qed.

End Ranges.

(** ** Further properties of the heuristic parser *)

Section Batch.

Import RegExp Sem.

Implicit Types (line ocrText : jsstring) (entries : list entry) (e : entry).

Lemma process_line_rejected entries line :
  accepted line = false → process_line entries line = entries.
Proof.
  unfold accepted, process_line, test. destruct (_ || _); [done|]. simpl.
  by destruct (exec timePattern line).
Qed.

(** What the callback pushes for an accepted line, field by field. *)
Lemma process_line_accepted entries line :
  accepted line = true →
  ∃ m, exec timePattern line = Some m
    ∧ process_line entries line
      = entries
        ++ [mkEntry
              (if truthy_string (remainder line) then remainder line
               else str "Class " ++ Number_toString (length entries + 1))
              (match exec dayPattern line with
               | Some dayMatch =>
                   toUpperCase (charAt (group dayMatch 1) 0)
                   ++ toLowerCase (slice_from (group dayMatch 1) 1)
               | None => str "Monday"
               end)
              (group m 1) (group m 2)
              (match exec roomPattern line with
               | Some roomMatch => matched roomMatch
               | None => []
               end)].
Proof.
  unfold accepted, process_line, test. destruct (_ || _); [done|]. simpl.
  destruct (exec timePattern line) as [m|]; [|done]. intros _. by exists m.
Qed.

Lemma process_line_new entries line e :
  process_line entries line = entries ++ [e] → accepted line = true.
Proof.
  intros H. destruct (accepted line) eqn:Ha; [done|].
  rewrite (process_line_rejected _ _ Ha) in H.
  apply (f_equal length) in H. rewrite length_app in H. simpl in H. lia.
Qed.

Lemma fold_process_line_spec lines :
  ∀ acc, ∃ news,
    fold_left process_line lines acc = acc ++ news
    ∧ length news = length (List.filter accepted lines)
    ∧ ∀ i e, news !! i = Some e →
        ∃ line, List.filter accepted lines !! i = Some line
          ∧ process_line (acc ++ take i news) line = acc ++ take i news ++ [e].
Proof.
  induction lines as [|l lines IH]; intros acc; simpl.
  - exists []. by rewrite app_nil_r.
  - destruct (accepted l) eqn:Ha.
    + destruct (process_line_accepted acc l Ha) as (m & _ & Hp).
      rewrite Hp. match type of Hp with _ = _ ++ [?e] => set (e0 := e) in * end.
      destruct (IH (acc ++ [e0])) as (news & Hf & Hl & Hi).
      exists (e0 :: news). rewrite Hf, <-app_assoc. split; [done|].
      split; [simpl; by rewrite Hl|]. intros [|i] e He; simpl in He.
      * simplify_eq. exists l. by rewrite take_0, app_nil_r.
      * destruct (Hi i e He) as (line & Hline & Hpl). exists line.
        split; [done|]. simpl. by rewrite <-!app_assoc in Hpl.
    + rewrite (process_line_rejected acc l Ha). apply IH.
Qed.

Lemma fold_process_line_core lines :
  ∀ acc acc', ∃ news news',
    fold_left process_line lines acc = acc ++ news
    ∧ fold_left process_line lines acc' = acc' ++ news'
    ∧ map core news = map core news'.
Proof.
  induction lines as [|l lines IH]; intros acc acc'; simpl.
  - exists [], []. by rewrite !app_nil_r.
  - destruct (accepted l) eqn:Ha.
    + destruct (process_line_accepted acc l Ha) as (m & Hm & Hp).
      destruct (process_line_accepted acc' l Ha) as (m' & Hm' & Hp').
      rewrite Hm in Hm'. injection Hm' as <-. rewrite Hp, Hp'.
      match type of Hp with _ = _ ++ [?e] => set (e0 := e) in * end.
      match type of Hp' with _ = _ ++ [?e] => set (e0' := e) in * end.
      destruct (IH (acc ++ [e0]) (acc' ++ [e0'])) as (news & news' & H1 & H2 & Hc).
      exists (e0 :: news), (e0' :: news').
      rewrite H1, H2, <-!app_assoc. split; [done|]. split; [done|].
      simpl. by rewrite Hc.
    + rewrite !(process_line_rejected _ l Ha). apply IH.
Qed.

Lemma split_app sep s1 s2 :
  split sep (s1 ++ sep :: s2) = split sep s1 ++ split sep s2.
Proof.
  induction s1 as [|c s1 IH]; simpl.
  - by rewrite N.eqb_refl.
  - destruct (c =? sep)%N; [by rewrite IH|]. rewrite IH.
    destruct (split sep s1) as [|w ws] eqn:E; [|done].
    by destruct s1; simpl in E; [|destruct (_ =? _)%N, (split sep s1)].
Qed.

Lemma lines_of_app ocrText1 ocrText2 :
  lines_of (ocrText1 ++ 10%N :: ocrText2)
  = lines_of ocrText1 ++ lines_of ocrText2.
Proof. unfold lines_of. by rewrite split_app, map_app, List.filter_app. Qed.

End Batch.

Section Tokens.

Import RegExp Sem.

Implicit Types (r : regex) (s line : jsstring) (m : Match) (x y : State).

Lemma exec_range r s m :
  wf r = true → exec r s = Some m →
  m_input m = s ∧ m_index m ≤ m_end m ∧ m_end m ≤ length s.
Proof.
  intros Hwf H. apply exec_sem in H as (Hin & Hi & y & Hy & He & _); [|done].
  apply sem_forward in Hy; simpl in *; [|done]. split; [done|lia].
Qed.

(** What [s.replace(r, '')] leaves is a subsequence of [s]. *)
Lemma remove_first_sublist r s :
  wf r = true → remove_first r s `sublist_of` s.
Proof.
  intros Hwf. unfold remove_first. destruct (exec r s) as [m|] eqn:E; [|done].
  apply exec_range in E as (_ & Hi & He); [|done].
  rewrite <-(take_drop (m_index m) s) at 3. apply sublist_app; [done|].
  replace (m_end m) with (m_index m + (m_end m - m_index m)) by lia.
  rewrite <-drop_drop. apply sublist_drop.
Qed.

Lemma plus_class_advances s cs x y :
  endIndex x ≤ length s → sem s (plus (Chr cs)) x y → endIndex x < endIndex y.
Proof.
  intros Hx H. apply sem_reads in H as (l & (_ & Hl & _) & W); [|done].
  destruct W as (ls & -> & Hmin & _ & Hf).
  apply words_class_iter in Hf as [Hlen _]. lia.
Qed.

(** The two groups of [timePattern] lie in the input in this order, with
    at least one code unit between them. *)
Lemma time_groups_order s m :
  exec timePattern s = Some m →
  ∃ i1 j1 i2 j2,
    m_captures m !! 1 = Some (i1, j1) ∧ m_captures m !! 2 = Some (i2, j2)
    ∧ i1 ≤ j1 ∧ j1 < i2 ∧ i2 ≤ j2 ∧ j2 ≤ length s.
Proof.
  intros H. apply exec_sem in H as (_ & Hi & y & Hy & _ & ->); [|done].
  unfold timePattern in Hy. cbn [seqs sem] in Hy.
  destruct Hy as (z1 & (z & Hh1 & ->) & z2 & H2 & z3 & H3 & z4 & H4 & z5 & H5
                    & z6 & H6 & z7 & (z' & Hh2 & ->) & z8 & H8 & H9).
  set (x0 := mkState (m_index m) ∅) in *.
  pose proof (sem_forward s hh_mm x0 z Hi Hh1) as F1.
  set (x1 := mkState (endIndex z) _) in *.
  assert (endIndex x1 ≤ length s) as B1 by (simpl; lia).
  pose proof (sem_forward s _ x1 z2 B1 H2) as F2.
  pose proof (sem_forward s _ z2 z3 (proj2 F2) H3) as F3.
  pose proof (sem_forward s _ z3 z4 (proj2 F3) H4) as F4.
  pose proof (plus_class_advances s _ z4 z5 (proj2 F4) H5) as A5.
  pose proof (sem_forward s _ z4 z5 (proj2 F4) H5) as F5.
  pose proof (sem_forward s _ z5 z6 (proj2 F5) H6) as F6.
  pose proof (sem_forward s _ z6 z' (proj2 F6) Hh2) as F7.
  set (x7 := mkState (endIndex z') _) in *.
  assert (endIndex x7 ≤ length s) as B7 by (simpl; lia).
  pose proof (sem_forward s _ x7 z8 B7 H8) as F8.
  pose proof (sem_forward s _ z8 y (proj2 F8) H9) as F9.
  assert (∀ n a b, sem s (star space) a b → captures b !! n = captures a !! n)
    as Fs by (intros n a b; apply sem_frame; apply not_elem_of_nil).
  assert (∀ n a b, sem s (opt am_pm) a b → captures b !! n = captures a !! n)
    as Fo by (intros n a b; apply sem_frame; apply not_elem_of_nil).
  assert (∀ n a b, sem s hh_mm a b → captures b !! n = captures a !! n)
    as Fh by (intros n a b; apply sem_frame; apply not_elem_of_nil).
  assert (captures z5 !! 1 = captures z4 !! 1) as Fp
    by (revert H5; apply sem_frame; apply not_elem_of_nil).
  exists (endIndex x0), (endIndex z), (endIndex z6), (endIndex z').
  split; [|split].
  - rewrite (Fo 1 _ _ H9), (Fs 1 _ _ H8). subst x7. simpl.
    rewrite lookup_insert_ne by done.
    rewrite (Fh 1 _ _ Hh2), (Fs 1 _ _ H6).
    rewrite Fp.
    rewrite (Fs 1 _ _ H4), (Fo 1 _ _ H3), (Fs 1 _ _ H2). subst x1. simpl.
    by rewrite lookup_insert_eq.
  - rewrite (Fo 2 _ _ H9), (Fs 2 _ _ H8). subst x7. simpl.
    by rewrite lookup_insert_eq.
  - simpl in *. lia.
Qed.

End Tokens.

(** ** [trim] *)

Section Trim.

Implicit Types (s : jsstring) (c : N).

Lemma trimStart_split s :
  ∃ sp, s = sp ++ trimStart s ∧ Forall (fun c => Char.is_space c = true) sp.
Proof.
  induction s as [|c s (sp & Hs & Hsp)]; simpl; [by exists []|].
  destruct (Char.is_space c) eqn:Hc; [|by exists []].
  exists (c :: sp). split; [simpl; by rewrite <-Hs|by constructor].
Qed.

Lemma trimStart_head s c : head (trimStart s) = Some c → Char.is_space c = false.
Proof.
  induction s as [|c' s IH]; simpl; [done|].
  destruct (Char.is_space c') eqn:Hc; [done|]. simpl. by intros [= <-].
Qed.

Lemma trimEnd_split s :
  ∃ sp, s = trimEnd s ++ sp ∧ Forall (fun c => Char.is_space c = true) sp.
Proof.
  unfold trimEnd. destruct (trimStart_split (rev s)) as (sp & Hs & Hsp).
  exists (rev sp). split.
  - rewrite <-rev_app_distr, <-Hs. by rewrite rev_involutive.
  - apply Forall_forall. intros c Hc. apply list_elem_of_In, in_rev in Hc.
    by apply (proj1 (Forall_forall _ _) Hsp), list_elem_of_In.
Qed.

Lemma trimEnd_last s c : last (trimEnd s) = Some c → Char.is_space c = false.
Proof.
  unfold trimEnd. destruct (trimStart (rev s)) as [|c' r] eqn:E; [done|].
  simpl. rewrite last_snoc. intros [= <-].
  apply (trimStart_head (rev s)). by rewrite E.
Qed.

(** [trim] cuts whitespace off both ends and nothing else. *)
Lemma trim_split s :
  ∃ sp1 sp2, s = sp1 ++ trim s ++ sp2
    ∧ Forall (fun c => Char.is_space c = true) sp1
    ∧ Forall (fun c => Char.is_space c = true) sp2.
Proof.
  unfold trim. destruct (trimStart_split s) as (sp1 & H1 & Hsp1).
  destruct (trimEnd_split (trimStart s)) as (sp2 & H2 & Hsp2).
  exists sp1, sp2. by rewrite <-H2.
Qed.

Lemma trim_head s c : head (trim s) = Some c → Char.is_space c = false.
Proof.
  unfold trim. destruct (trimEnd_split (trimStart s)) as (sp & Hs & _).
  intros H. apply (trimStart_head s). rewrite Hs.
  by destruct (trimEnd (trimStart s)).
Qed.

Lemma trim_last s c : last (trim s) = Some c → Char.is_space c = false.
Proof. apply trimEnd_last. Qed.

Lemma trim_sublist s : trim s `sublist_of` s.
Proof.
  destruct (trim_split s) as (sp1 & sp2 & Hs & _). rewrite Hs at 2.
  by apply sublist_inserts_l, sublist_inserts_r.
Qed.

Lemma trim_blank s :
  Forall (fun c => Char.is_space c = true) s → trim s = [].
Proof.
  intros H. unfold trim.
  assert (trimStart s = []) as ->; [|done].
  induction H as [|c s Hc _ IH]; simpl; [done|]. by rewrite Hc.
Qed.

End Trim.

(** ** The heuristic parser: what a batch and an entry are made of *)

Section Entries.

Import RegExp Sem.

Implicit Types (line ocrText : jsstring) (entries : list entry) (e : entry).

Lemma fold_process_line_short lines acc :
  Forall (fun line => length line < 5) lines →
  fold_left process_line lines acc = acc.
Proof.
  induction 1 as [|line lines Hl _ IH]; simpl; [done|].
  rewrite process_line_skip; [done|].
  by rewrite (proj2 (Nat.ltb_lt _ _) Hl).
Qed.

(** X1: a text in which every line has fewer than five code units between
    its leading and trailing whitespace gives no entry; the empty text and
    a text of whitespace only are such texts. *)
Theorem short_lines_give_nothing ocrText :
  Forall (fun line => length (trim line) < 5) (split 10 ocrText) →
  parseOCRToTimetable ocrText = [].
Proof.
  intros H. unfold parseOCRToTimetable, lines_of.
  apply fold_process_line_short.
  apply Forall_forall. intros line Hin.
  apply list_elem_of_In, filter_In in Hin as [Hin _].
  apply in_map_iff in Hin as (raw & <- & Hraw).
  by apply (proj1 (Forall_forall _ _) H), list_elem_of_In.
Qed.

Lemma short_lines_give_nothing_witness :
  parseOCRToTimetable blank_and_short_text = [].
Proof.
  apply (short_lines_give_nothing blank_and_short_text).
  vm_compute. repeat constructor.
Defined.

(** X2: a batch has one entry per accepted line (a line of five code
    units or more, free of noise words, with a time range), in the order
    of the lines: the entry at index [i] is what the callback pushes for
    the [i]-th accepted line when the [i] entries before it are in the
    array. *)
Theorem entries_follow_accepted_lines ocrText :
  length (parseOCRToTimetable ocrText)
  = length (List.filter accepted (lines_of ocrText))
  ∧ ∀ i e, parseOCRToTimetable ocrText !! i = Some e →
      ∃ line, List.filter accepted (lines_of ocrText) !! i = Some line
        ∧ process_line (take i (parseOCRToTimetable ocrText)) line
          = take i (parseOCRToTimetable ocrText) ++ [e].
Proof.
  unfold parseOCRToTimetable.
  destruct (fold_process_line_spec (lines_of ocrText) []) as (news & -> & Hl & Hi).
  simpl. split; [done|]. intros i e He.
  destruct (Hi i e He) as (line & Hline & Hp). by exists line.
Qed.

Lemma process_line_entry entries line e :
  process_line entries line = entries ++ [e] →
  ∃ m, exec timePattern line = Some m
    ∧ title e = (if truthy_string (remainder line) then remainder line
                 else str "Class " ++ Number_toString (length entries + 1))
    ∧ day e = match exec dayPattern line with
              | Some dayMatch =>
                  toUpperCase (charAt (group dayMatch 1) 0)
                  ++ toLowerCase (slice_from (group dayMatch 1) 1)
              | None => str "Monday"
              end
    ∧ startTime e = group m 1 ∧ endTime e = group m 2
    ∧ location e = match exec roomPattern line with
                   | Some roomMatch => matched roomMatch
                   | None => []
                   end.
Proof.
  intros H. pose proof (process_line_new _ _ _ H) as Ha.
  destruct (process_line_accepted entries line Ha) as (m & Hm & Hp).
  rewrite Hp in H. apply app_inv_head in H. injection H as <-. by exists m.
Qed.

(** X3: parsing two texts joined by a line break gives the entries of the
    first text, unchanged, followed by one entry for each entry of the
    second text, with the same day, times and location. The title is the
    same too when the line leaves a remainder; a synthesized title
    "Class i+1" becomes "Class n+i+1", [n] being the number of entries
    of the first text: the numbering goes on. *)
Theorem parse_joined_texts ocrText1 ocrText2 :
  ∃ more,
    parseOCRToTimetable (ocrText1 ++ 10%N :: ocrText2)
    = parseOCRToTimetable ocrText1 ++ more
    ∧ length more = length (parseOCRToTimetable ocrText2)
    ∧ ∀ i e, parseOCRToTimetable ocrText2 !! i = Some e →
        ∃ e' line,
          more !! i = Some e'
          ∧ List.filter accepted (lines_of ocrText2) !! i = Some line
          ∧ core e' = core e
          ∧ ((remainder line ≠ [] ∧ title e = remainder line
              ∧ title e' = title e)
             ∨ (remainder line = []
                ∧ title e = str "Class " ++ Number_toString (i + 1)
                ∧ title e'
                  = str "Class "
                    ++ Number_toString
                         (length (parseOCRToTimetable ocrText1) + i + 1))).
Proof.
  unfold parseOCRToTimetable. rewrite lines_of_app, fold_left_app.
  set (first := fold_left process_line (lines_of ocrText1) []).
  destruct (fold_process_line_spec (lines_of ocrText2) first)
    as (news & -> & Hl & Hi).
  destruct (fold_process_line_spec (lines_of ocrText2) [])
    as (news' & -> & Hl' & Hi').
  cbn [app]. exists news. split; [done|]. split; [congruence|].
  intros i e He. destruct (Hi' i e He) as (line & Hline & Hp').
  assert (i < length news') as Hlt by by apply lookup_lt_is_Some_1.
  destruct (lookup_lt_is_Some_2 news i) as [e' He']; [lia|].
  destruct (Hi i e' He') as (line' & Hline' & Hp).
  assert (line' = line) as -> by congruence.
  exists e', line. split; [done|]. split; [done|].
  rewrite app_assoc in Hp. cbn [app] in Hp'.
  apply process_line_entry in Hp as (m & Hm & Ht & Hd & Hs & Hn & Ho).
  apply process_line_entry in Hp' as (m' & Hm' & Ht' & Hd' & Hs' & Hn' & Ho').
  assert (m' = m) as -> by congruence. split.
  - unfold core. by rewrite Hd, Hd', Hs, Hs', Hn, Hn', Ho, Ho'.
  - rewrite length_app, !length_take in Ht.
    rewrite length_take in Ht'.
    replace (i `min` length news) with i in Ht by lia.
    replace (i `min` length news') with i in Ht' by lia.
    destruct (remainder line) as [|c r] eqn:Hr; cbn [truthy_string] in Ht, Ht'.
    + right. by rewrite Ht, Ht'.
    + left. by rewrite Ht, Ht'.
Qed.

Lemma substring_length s i j :
  j ≤ length s → length (substring s i j) = j - i.
Proof. intros Hj. unfold substring. rewrite length_take, length_drop. lia. Qed.

Lemma substring_join (s : jsstring) i j k :
  i ≤ j → j ≤ k → substring s i k = substring s i j ++ substring s j k.
Proof.
  intros Hij Hjk. unfold substring.
  replace (k - i) with ((j - i) + (k - j)) by lia.
  rewrite <-take_take_drop, drop_drop.
  by replace (i + (j - i)) with j by lia.
Qed.

(** X4: the start and the end time of an entry stand in its line as they
    are, the start time first, with at least one code unit between
    them. *)
Theorem times_stand_in_line entries line e :
  process_line entries line = entries ++ [e] →
  ∃ pre mid post,
    line = pre ++ startTime e ++ mid ++ endTime e ++ post ∧ mid ≠ [].
Proof.
  intros H. apply process_line_entry in H as (m & Hm & _ & _ & -> & -> & _).
  pose proof (exec_range timePattern line m eq_refl Hm) as (Hin & _ & _).
  destruct (time_groups_order _ _ Hm)
    as (i1 & j1 & i2 & j2 & H1 & H2 & Hl1 & Hl2 & Hl3 & Hl4).
  unfold group, capture. rewrite H1, H2, Hin. simpl.
  exists (take i1 line), (substring line j1 i2), (drop j2 line). split.
  - rewrite (substring_infix line i1 j2) at 1 by lia. f_equal.
    rewrite (substring_join line i1 j1 j2), (substring_join line j1 i2 j2)
      by lia.
    by rewrite <-!app_assoc.
  - intros Hnil. apply (f_equal length) in Hnil.
    rewrite substring_length in Hnil by lia. simpl in Hnil. lia.
Qed.

Lemma times_stand_in_line_witness :
  ∃ pre mid post,
    physics_line
    = pre ++ startTime physics_entry ++ mid ++ endTime physics_entry ++ post
    ∧ mid ≠ [].
Proof.
  apply (times_stand_in_line [] physics_line physics_entry).
  vm_compute. reflexivity.
Defined.

Lemma exec_capture_range n r s m i j :
  wf r = true → exec r s = Some m → m_captures m !! n = Some (i, j) →
  i ≤ j ∧ j ≤ length s.
Proof.
  intros Hwf H Hc. apply exec_sem in H as (_ & Hi & y & Hy & _ & Hcap); [|done].
  rewrite Hcap in Hc.
  pose proof (sem_forward s r (mkState (m_index m) ∅) y Hi Hy) as Hf.
  destruct (sem_capture_range s n i j r (mkState (m_index m) ∅) y Hi Hy Hc)
    as [He|?]; [done|lia].
Qed.

(** What [roomPattern] matches: one of the four words in any mix of
    cases, then something that holds a digit. *)
Lemma room_match_shape s m :
  exec roomPattern s = Some m →
  (∃ pre post, s = pre ++ matched m ++ post)
  ∧ ∃ w head tail,
      w ∈ room_words ∧ matched m = head ++ tail ∧ same_letters head w
      ∧ Exists (fun c => Char.is_digit c = true) tail.
Proof.
  intros H. pose proof (exec_range roomPattern s m eq_refl H) as (Hin & Hie & He).
  apply exec_sem in H as (_ & Hi & y & Hy & Hend & _); [|done].
  unfold matched. rewrite Hin. split.
  { exists (take (m_index m) s), (drop (m_end m) s).
    by apply substring_infix. }
  apply sem_reads in Hy as (l & Hl & W); [|done].
  apply reads_substring in Hl. simpl in Hl. rewrite <-Hend in Hl. rewrite Hl.
  unfold roomPattern in W. cbn [seqs words] in W.
  destruct W as (l0 & l1 & -> & -> & lw & l2 & -> & Hw & lsp & l3 & -> & _
                   & lo1 & l4 & -> & _ & lo2 & l5 & -> & _ & lg & l6 & ->
                   & (ld & lo3 & -> & Hd & _) & ->).
  change (alts _) with (alts (map lit room_words)) in Hw.
  apply words_alts_lit in Hw as (w & Hin' & Hsame); [|done].
  exists w, lw, (lsp ++ lo1 ++ lo2 ++ (ld ++ lo3) ++ []).
  split; [done|]. split; [done|]. split; [done|].
  destruct Hd as (ls & -> & Hmin & _ & Hf).
  apply words_class_iter in Hf as [Hlen Hall].
  destruct (concat ls) as [|d ds] eqn:E; [simpl in Hlen; lia|].
  apply Forall_cons in Hall as [Hd _]. apply class_mem_digit in Hd.
  apply Exists_app. right. apply Exists_app. right. apply Exists_app. right.
  apply Exists_app. left. by left.
Qed.

(** X5: the location of an entry is empty when [roomPattern] finds
    nothing in the line, and only then; otherwise it is what the pattern
    matches first: it stands in the line as it is, starts with room, lab,
    hall or lecture in any mix of cases, and holds a digit after that
    word. *)
Theorem location_stands_in_line entries line e :
  process_line entries line = entries ++ [e] →
  (exec roomPattern line = None ∧ location e = [])
  ∨ (∃ roomMatch,
       exec roomPattern line = Some roomMatch
       ∧ location e = matched roomMatch
       ∧ (∃ pre post, line = pre ++ location e ++ post)
       ∧ ∃ w head tail,
           w ∈ room_words ∧ location e = head ++ tail ∧ same_letters head w
           ∧ Exists (fun c => Char.is_digit c = true) tail).
Proof.
  intros H. apply process_line_entry in H as (m & _ & _ & _ & _ & _ & ->).
  destruct (exec roomPattern line) as [roomMatch|] eqn:Hr; [right|by left].
  exists roomMatch. split; [done|]. split; [done|].
  by apply room_match_shape.
Qed.

Lemma location_stands_in_line_witness :
  (exec roomPattern physics_line = None ∧ location physics_entry = [])
  ∨ (∃ roomMatch,
       exec roomPattern physics_line = Some roomMatch
       ∧ location physics_entry = matched roomMatch
       ∧ (∃ pre post, physics_line = pre ++ location physics_entry ++ post)
       ∧ ∃ w head tail,
           w ∈ room_words ∧ location physics_entry = head ++ tail
           ∧ same_letters head w
           ∧ Exists (fun c => Char.is_digit c = true) tail).
Proof.
  apply (location_stands_in_line [] physics_line physics_entry).
  vm_compute. reflexivity.
Defined.

(** X6: the title of an entry is "Class N", N being one more than the
    number of entries made before, when nothing is left of the line;
    otherwise it is what is left of the line: a non-empty subsequence of
    the line without whitespace at either end. *)
Theorem title_is_remainder_or_class_n entries line e :
  process_line entries line = entries ++ [e] →
  (remainder line = []
   ∧ title e = str "Class " ++ Number_toString (length entries + 1))
  ∨ (title e = remainder line ∧ title e ≠ [] ∧ title e `sublist_of` line
     ∧ (∀ c, head (title e) = Some c → Char.is_space c = false)
     ∧ (∀ c, last (title e) = Some c → Char.is_space c = false)).
Proof.
  intros H. apply process_line_entry in H as (m & _ & -> & _).
  destruct (truthy_string (remainder line)) eqn:Ht.
  - right. split; [done|]. split; [by destruct (remainder line)|].
    unfold remainder. split; [|split; [apply trim_head|apply trim_last]].
    etrans; [apply trim_sublist|].
    etrans; [by apply remove_first_sublist|].
    etrans; by apply remove_first_sublist.
  - left. by destruct (remainder line).
Qed.

Lemma title_is_remainder_or_class_n_witness :
  (remainder physics_line = []
   ∧ title physics_entry
     = str "Class " ++ Number_toString (length (@nil entry) + 1))
  ∨ (title physics_entry = remainder physics_line ∧ title physics_entry ≠ []
     ∧ title physics_entry `sublist_of` physics_line
     ∧ (∀ c, head (title physics_entry) = Some c → Char.is_space c = false)
     ∧ (∀ c, last (title physics_entry) = Some c → Char.is_space c = false)).
Proof.
  apply (title_is_remainder_or_class_n [] physics_line physics_entry).
  vm_compute. reflexivity.
Defined.

(** X7: the day of an entry is "Monday" when [dayPattern] finds no
    weekday in the line; otherwise, and only then, it is the weekday name
    the pattern finds first in the line, in whatever mix of cases it is
    written there, with its first letter put in upper case and the
    others in lower case. *)
Theorem day_is_found_or_monday entries line e :
  process_line entries line = entries ++ [e] →
  (exec dayPattern line = None ∧ day e = str "Monday")
  ∨ ∃ dayMatch w,
      exec dayPattern line = Some dayMatch
      ∧ w ∈ weekdays ∧ same_letters (group dayMatch 1) (str w)
      ∧ day e = capitalized (str w)
      ∧ occurs_in (str w) line.
Proof.
  intros H. apply process_line_entry in H as (m & _ & _ & -> & _).
  destruct (exec dayPattern line) as [dayMatch|] eqn:Hd; [right|by left].
  destruct (day_group_set _ _ Hd) as (g & w & Hg & Hw & Hl).
  pose proof (exec_range dayPattern line dayMatch eq_refl Hd) as (Hin & _ & _).
  exists dayMatch, w. split; [done|]. split; [done|].
  unfold group. rewrite Hg. cbn [from_option id]. split; [done|].
  unfold capture in Hg.
  destruct (m_captures dayMatch !! 1) as [[i j]|] eqn:Hc; [|done].
  injection Hg as <-. rewrite Hin in *.
  destruct (exec_capture_range 1 dayPattern line dayMatch i j eq_refl Hd Hc)
    as [Hij Hj].
  split.
  - unfold charAt, slice_from, capitalized.
    change (substring ?s 0 1) with (take (1 - 0) (drop 0 s)).
    replace (1 - 0) with 1 by done. rewrite drop_0.
    assert (Forall (fun c => Char.is_lower c = true) (str w)) as Hlow.
    { unfold weekdays in Hw. repeat (apply elem_of_cons in Hw as [->|Hw]);
        [by apply forallb_Forall..|by apply elem_of_nil in Hw]. }
    destruct (same_letters_case _ _ (Forall2_take _ _ _ 1 Hl)) as [_ ->];
      [by apply Forall_take|].
    destruct (same_letters_case _ _ (Forall2_drop _ _ _ 1 Hl)) as [-> _];
      [by apply Forall_drop|].
    done.
  - exists (take i line), (substring line i j), (drop j line).
    split; [by apply substring_infix|done].
Qed.

Lemma day_is_found_or_monday_witness :
  (exec dayPattern physics_line = None ∧ day physics_entry = str "Monday")
  ∨ ∃ dayMatch w,
      exec dayPattern physics_line = Some dayMatch
      ∧ w ∈ weekdays ∧ same_letters (group dayMatch 1) (str w)
      ∧ day physics_entry = capitalized (str w)
      ∧ occurs_in (str w) physics_line.
Proof.
  apply (day_is_found_or_monday [] physics_line physics_entry).
  vm_compute. reflexivity.
Defined.

End Entries.

(** ** The route and its callers: further properties *)

Section Callers.

Implicit Types (o : gmap jsstring json) (body parsed : json)
  (reply : vision_reply) (imageData : jsstring).

Lemma schema_parse_valid body : is_Some (schema_parse body) ↔ valid_body body.
Proof.
  split.
  - intros [[s b] H]. destruct body as [| | | | |o|]; try done. simpl in H.
    destruct (o !! str "imageData") as [[| | |[|c s']| | |]|] eqn:Hi; try done.
    exists o, (c :: s'). split; [done|]. split; [done|]. split; [done|].
    destruct (o !! str "enhanceResults") as [[|b'| | | | |]|]; try done;
      [right; by exists b'|by left].
  - intros (o & s & -> & Hi & Hs & He). simpl. rewrite Hi.
    destruct s as [|c s]; [done|].
    destruct He as [->|[b ->]]; by eexists.
Qed.

(** X8: the route answers 400 exactly when the body is not an object with
    a non-empty string [imageData] and an [enhanceResults] that is absent
    or a boolean; every other request is answered 200, whatever the
    vision service does; the route never answers 500. *)
Theorem ocr_route_answers body reply :
  (ocr_route body reply = BadRequest400 ↔ ¬ valid_body body)
  ∧ (valid_body body ↔ ∃ result, ocr_route body reply = Ok200 result)
  ∧ ocr_route body reply ≠ ServerError500.
Proof.
  rewrite <-schema_parse_valid. unfold ocr_route.
  destruct (schema_parse body) as [[s b]|] eqn:Hb.
  - split; [|split].
    + split; [by destruct (vision_stage reply)|]. intros []. by eexists.
    + split; [|by eexists]. intros _. destruct (vision_stage reply); by eexists.
    + by destruct (vision_stage reply).
  - split; [|split; [|done]].
    + split; [|done]. by intros _ [? ?].
    + split; [by intros [? ?]|by intros [? ?]].
Qed.

(** X9: the [enhanceResults] hint has no effect: setting it to either
    boolean, or leaving it out, in a request that passes validation
    changes nothing in the answer. *)
Theorem enhanceResults_has_no_effect o b reply :
  valid_body (JObj o) →
  ocr_route (JObj (<[str "enhanceResults" := JBool b]> o)) reply
    = ocr_route (JObj o) reply
  ∧ ocr_route (JObj (delete (str "enhanceResults") o)) reply
    = ocr_route (JObj o) reply.
Proof.
  intros Hv. assert (is_Some (schema_parse (JObj o))) as Ho
    by by apply schema_parse_valid.
  destruct Hv as (o' & s & [= <-] & Hi & Hs & He).
  assert (str "enhanceResults" ≠ str "imageData") as Hne by done.
  rewrite (ocr_route_valid _ _ Ho). split.
  - apply ocr_route_valid, schema_parse_valid.
    exists (<[str "enhanceResults" := JBool b]> o), s. split; [done|].
    rewrite lookup_insert_ne by done. split; [done|]. split; [done|].
    right. exists b. by rewrite lookup_insert_eq.
  - apply ocr_route_valid, schema_parse_valid.
    exists (delete (str "enhanceResults") o), s. split; [done|].
    rewrite lookup_delete_ne by done. split; [done|]. split; [done|].
    left. by rewrite lookup_delete_eq.
Qed.

Lemma enhanceResults_has_no_effect_witness :
  ocr_route (JObj (<[str "enhanceResults" := JBool false]> image_fields))
    BadJson
    = ocr_route (JObj image_fields) BadJson
  ∧ ocr_route (JObj (delete (str "enhanceResults") image_fields)) BadJson
    = ocr_route (JObj image_fields) BadJson.
Proof.
  apply (enhanceResults_has_no_effect image_fields false BadJson).
  eexists _, _. split; [reflexivity|]. split; [reflexivity|].
  split; [discriminate|]. left. reflexivity.
Defined.

(** X10: a vision reply that is not a JSON object never gives entries of
    its own. For a top-level array, which is what the prompt asks the
    service for, the result is the built-in [Array.prototype.entries];
    for a string, a number or a boolean it is the empty array; for [null]
    it is the fallback set. *)
Theorem ocr_route_reply_not_an_object body parsed :
  valid_body body → (∀ o, parsed ≠ JObj o) →
  ocr_route body (Json parsed)
  = Ok200 (match parsed with
           | JNull => json_of_entries FallbackEntrySet
           | JArr _ => builtin
           | _ => val (JArr [])
           end).
Proof.
  intros Hv Hn. apply schema_parse_valid in Hv.
  rewrite (ocr_route_valid _ _ Hv).
  destruct parsed as [| | | | |o|]; try done. by destruct (Hn o).
Qed.

Lemma ocr_route_reply_not_an_object_witness :
  ocr_route image_request (Json (JArr [JObj ∅])) = Ok200 builtin.
Proof.
  apply (ocr_route_reply_not_an_object image_request (JArr [JObj ∅])).
  - eexists _, _. split; [reflexivity|]. split; [reflexivity|].
    split; [discriminate|]. left. reflexivity.
  - discriminate.
Defined.



Lemma scanner_request_valid imageData :
  imageData ≠ [] → is_Some (schema_parse (Scanner.request imageData)).
Proof.
  intros H. apply schema_parse_valid. unfold Scanner.request.
  eexists _, imageData. split; [done|]. split; [done|]. split; [done|].
  right. by exists true.
Qed.

(** X11: when the vision stage fails, the scanner hands the six entries
    of the fallback set to its caller as the result of the scan; no error
    is shown. *)
Theorem scanner_presents_fallback imageData reply :
  imageData ≠ [] → vision_fails reply →
  Scanner.processImage (Some (Some imageData)) (server reply)
  = Scanner.ScanComplete (json_of_entries FallbackEntrySet).
Proof.
  intros Hi Hf. unfold Scanner.processImage, server.
  rewrite (ocr_route_valid _ _ (scanner_request_valid _ Hi)).
  by rewrite (vision_fails_stage _ Hf).
Qed.

Lemma scanner_presents_fallback_witness :
  Scanner.processImage
    (Some (Some (str "data:image/png;base64,iVBORw0KGgo="))) (server BadJson)
  = Scanner.ScanComplete (json_of_entries FallbackEntrySet).
Proof.
  apply (scanner_presents_fallback
           (str "data:image/png;base64,iVBORw0KGgo=") BadJson).
  - discriminate.
  - right. right. left. reflexivity.
Defined.





(** X13: the uploader never gets a scan from the server. Its form data
    reaches the route as [{}], which fails validation whatever the image,
    the recognized text and the vision reply; so when it reports success
    it is in demo mode, nothing was sent, and the result is a made-up
    object that holds only an id. *)
Theorem uploader_never_gets_a_scan selectedFile user ocrText demoMode newId
    reply fetch result :
  ocr_route (JObj Uploader.formData) reply = BadRequest400
  ∧ Uploader.handleUpload selectedFile user ocrText false newId (server reply)
    ≠ Uploader.Processed result
  ∧ Uploader.handleUpload selectedFile user ocrText false newId
      (fun _ => None) ≠ Uploader.Processed result
  ∧ (Uploader.handleUpload selectedFile user ocrText demoMode newId
       (server reply) = Uploader.Processed result →
     demoMode = true ∧ result = {[ str "id" := JNum newId ]}
     ∧ Uploader.handleUpload selectedFile user ocrText demoMode newId fetch
       = Uploader.Processed result).
Proof.
  split; [done|].
  unfold Uploader.handleUpload, Uploader.apiRequest_POST, server.
  destruct user as [u|]; [|done].
  destruct selectedFile; [|done]. cbn [negb].
  destruct ocrText; [|done].
  destruct (Uploader.id_toString u); [|done].
  split; [done|]. split; [done|].
  destruct demoMode; [|done]. intros [= <-].
  unfold Uploader.formData. by rewrite (left_id_L ∅ (∪)).
Qed.

(** X19: for the users that [AuthProvider] sets, the Firebase user and the
    demo user, an upload always ends in "Processing failed", in demo mode
    too, and no request is made: these users have a [uid] and no [id], so
    [user.id.toString()] throws. *)
Theorem uploader_fails_for_every_user uid email displayName photoURL now
    ocrText demoMode newId fetch :
  Uploader.handleUpload true
    (Some (Uploader.firebaseUser uid email displayName photoURL))
    ocrText demoMode newId fetch = Uploader.ProcessingFailed
  ∧ Uploader.handleUpload true (Some (Uploader.demoUser now))
      ocrText demoMode newId fetch = Uploader.ProcessingFailed.
Proof.
  unfold Uploader.handleUpload, Uploader.id_toString,
    Uploader.firebaseUser, Uploader.demoUser.
  rewrite !lookup_insert_ne, !lookup_singleton_ne by (vm_compute; congruence).
  by destruct ocrText.
Qed.

End Callers.

Example entriesByDay_week :
  (fun groups => (map View.id <$> groups !! str "Monday",
                  map View.id <$> groups !! str "Friday",
                  map View.id <$> groups !! str "monday"))
    <$> View.entriesByDay View.week
  = Some (Some [2; 5; 1]%Z, Some [6; 4]%Z, None).
Proof. vm_compute. reflexivity. Qed.

(** ** The stable sort *)

Section StableSortFacts.

Context {A : Type} (key : A → nat).

Implicit Types (x y : A) (l : list A).

Lemma insert_sorted_perm x l : insert_sorted A key x l ≡ₚ x :: l.
Proof.
  induction l as [|y l IH]; simpl; [done|].
  destruct (key x <=? key y); [done|]. rewrite IH. apply Permutation_swap.
Qed.

Lemma stable_sort_perm l : stable_sort A key l ≡ₚ l.
Proof.
  induction l as [|x l IH]; simpl; [done|].
  by rewrite insert_sorted_perm, IH.
Qed.

Lemma insert_sorted_sorted x l :
  StronglySorted (fun a b => key a ≤ key b) l →
  StronglySorted (fun a b => key a ≤ key b) (insert_sorted A key x l).
Proof.
  induction 1 as [|y l Hl IH Hy]; simpl; [by repeat constructor|].
  destruct (key x <=? key y) eqn:E.
  - apply Nat.leb_le in E. constructor; [by constructor|].
    constructor; [done|]. eapply Forall_impl; [exact Hy|]. simpl. lia.
  - apply Nat.leb_gt in E. constructor; [done|].
    rewrite insert_sorted_perm. constructor; [lia|done].
Qed.

Lemma stable_sort_sorted l :
  StronglySorted (fun a b => key a ≤ key b) (stable_sort A key l).
Proof.
  induction l as [|x l IH]; simpl; [constructor|].
  by apply insert_sorted_sorted.
Qed.

Lemma insert_sorted_filter k x l :
  List.filter (fun e => key e =? k) (insert_sorted A key x l)
  = List.filter (fun e => key e =? k) (x :: l).
Proof.
  induction l as [|y l IH]; [done|]. cbn [insert_sorted].
  destruct (key x <=? key y) eqn:E; [done|]. apply Nat.leb_gt in E.
  cbn [List.filter] in *. rewrite IH.
  destruct (key x =? k) eqn:Ex, (key y =? k) eqn:Ey; try done.
  apply Nat.eqb_eq in Ex, Ey. lia.
Qed.

(** Entries with the same key keep their order. *)
Lemma stable_sort_filter k l :
  List.filter (fun e => key e =? k) (stable_sort A key l)
  = List.filter (fun e => key e =? k) l.
Proof.
  induction l as [|x l IH]; [done|]. cbn [stable_sort foldr].
  rewrite insert_sorted_filter. cbn [List.filter].
  fold (stable_sort A key l). by rewrite IH.
Qed.

End StableSortFacts.

(** ** The timetable view: properties *)

Section ViewFacts.

Import View.

Implicit Types (e a b : ScheduleEntry) (l g entries : list ScheduleEntry)
  (d : jsstring) (groups : gmap jsstring (list ScheduleEntry)).

Lemma sortByStart_spec l g :
  sortByStart l = Some g →
  g ≡ₚ l ∧ StronglySorted starts_no_later g
  ∧ ∀ k, startingAt k g = startingAt k l.
Proof.
  unfold sortByStart. destruct l as [|x [|y l]].
  - intros [= <-]. by repeat constructor.
  - intros [= <-]. by repeat constructor.
  - set (l0 := x :: y :: l). set (key := fun e => default 0 (startMinutes e)).
    destruct (forallb _ l0) eqn:Hall; [|done]. intros Hg.
    assert (g = stable_sort _ key l0) as -> by congruence. clear Hg.
    assert (∀ e, e ∈ l0 → startMinutes e = Some (key e)) as Hkey.
    { intros e He. apply list_elem_of_In in He.
      apply (proj1 (forallb_forall _ _) Hall), bool_decide_eq_true in He.
      destruct He as [k Hk]. unfold key. by rewrite Hk. }
    assert (∀ e, e ∈ stable_sort _ key l0 → startMinutes e = Some (key e))
      as Hkey' by (intros e He; apply Hkey; by rewrite <-(stable_sort_perm key l0)).
    split; [apply stable_sort_perm|]. split.
    + pose proof (stable_sort_sorted key l0) as Hs. revert Hkey'.
      induction Hs as [|a g' Hg' IH Ha]; intros Hk; constructor.
      * apply IH. intros e He. apply Hk. by right.
      * apply Forall_forall. intros b Hb.
        exists (key a), (key b). split; [apply Hk; by left|].
        split; [apply Hk; by right|].
        by apply (proj1 (Forall_forall _ _) Ha).
    + intros k. unfold startingAt.
      rewrite (List.filter_ext_in _ (fun e => key e =? k) (stable_sort _ key l0)).
      2:{ intros e He. apply list_elem_of_In in He. rewrite (Hkey' e He).
          destruct (key e =? k) eqn:E.
          - apply Nat.eqb_eq in E. subst. by apply bool_decide_eq_true.
          - apply Nat.eqb_neq in E. apply bool_decide_eq_false. congruence. }
      rewrite (List.filter_ext_in _ (fun e => key e =? k) l0).
      2:{ intros e He. apply list_elem_of_In in He. rewrite (Hkey e He).
          destruct (key e =? k) eqn:E.
          - apply Nat.eqb_eq in E. subst. by apply bool_decide_eq_true.
          - apply Nat.eqb_neq in E. apply bool_decide_eq_false. congruence. }
      apply stable_sort_filter.
Qed.

Lemma fold_groups_None entries ds :
  fold_left (groupDay entries) ds None = None.
Proof. by induction ds. Qed.

Lemma fold_groups entries ds :
  ∀ acc groups,
    fold_left (groupDay entries) ds (Some acc) = Some groups →
    ∀ d, (d ∈ ds → ∃ g, sortByStart (entriesOn d entries) = Some g
                        ∧ groups !! d = Some g)
         ∧ (d ∉ ds → groups !! d = acc !! d).
Proof.
  induction ds as [|d0 ds IH]; intros acc groups H d; simpl in H.
  - injection H as <-. split; [|done]. by intros ?%elem_of_nil.
  - destruct (sortByStart (entriesOn d0 entries)) as [g0|] eqn:E;
      [|by rewrite fold_groups_None in H].
    destruct (IH _ _ H d) as [Hin Hout]. split.
    + intros Hd. destruct (decide (d ∈ ds)) as [Hds|Hds]; [by apply Hin|].
      apply elem_of_cons in Hd as [->|?]; [|done].
      exists g0. split; [done|]. by rewrite (Hout Hds), lookup_insert_eq.
    + intros Hd. apply not_elem_of_cons in Hd as [Hne Hds].
      by rewrite (Hout Hds), lookup_insert_ne.
Qed.

Lemma entriesByDay_lookup entries groups d :
  entriesByDay entries = Some groups →
  (d ∈ daysOfWeek → ∃ g, sortByStart (entriesOn d entries) = Some g
                         ∧ groups !! d = Some g)
  ∧ (d ∉ daysOfWeek → groups !! d = None).
Proof.
  intros H. destruct (fold_groups entries daysOfWeek ∅ groups H d) as [H1 H2].
  split; [done|]. intros Hd. by rewrite (H2 Hd).
Qed.

Lemma split_no_sep sep (s : jsstring) : sep ∉ s → split sep s = [s].
Proof.
  induction s as [|c s IH]; intros H; simpl; [done|].
  apply not_elem_of_cons in H as [Hc Hs].
  rewrite (proj2 (N.eqb_neq c sep)) by done. by rewrite (IH Hs).
Qed.

Lemma split_first sep (h rest : jsstring) :
  sep ∉ h → split sep (h ++ sep :: rest) = h :: split sep rest.
Proof. intros H. by rewrite split_app, (split_no_sep _ _ H). Qed.

Lemma digit_not_colon (l : jsstring) :
  Forall (fun c => Char.is_digit c = true) l → 58%N ∉ l.
Proof.
  intros H Hin. by apply (proj1 (Forall_forall _ _) H) in Hin.
Qed.

Lemma Number_plain_digits (l : jsstring) :
  Forall (fun c => Char.is_digit c = true) l → length l ≤ 14 →
  Number_plain l = Some (decimal l).
Proof.
  intros Hd H14. unfold Number_plain.
  rewrite (proj2 (Nat.leb_le _ _) H14).
  assert (forallb Char.is_digit l = true) as ->; [|done].
  apply forallb_forall. intros c Hc.
  by apply (proj1 (Forall_forall _ _) Hd), list_elem_of_In.
Qed.

Lemma startMinutes_token e :
  time_token (startTime e) →
  ∃ h m, startTime e = h ++ 58%N :: m
    ∧ startMinutes e = Some (decimal h * 60 + decimal m).
Proof.
  intros (h & m & Hs & Hh & Hm & Hd). exists h, m. split; [done|].
  apply Forall_app in Hd as [Hdh Hdm]. unfold startMinutes.
  rewrite Hs, (split_first _ _ _ (digit_not_colon _ Hdh)).
  rewrite (split_no_sep _ _ (digit_not_colon _ Hdm)).
  rewrite !Number_plain_digits; [done|done|lia|done|lia].
Qed.

Lemma sortByStart_defined l :
  Forall (fun e => is_Some (startMinutes e)) l → is_Some (sortByStart l).
Proof.
  intros H. unfold sortByStart. destruct l as [|x [|y l]]; [done..|].
  assert (forallb (fun e => bool_decide (is_Some (startMinutes e)))
            (x :: y :: l) = true) as ->; [|done].
  apply forallb_forall. intros e He. apply bool_decide_eq_true.
  by apply (proj1 (Forall_forall _ _) H), list_elem_of_In.
Qed.

Lemma entriesByDay_total entries :
  Forall (fun e => time_token (startTime e)) entries →
  ∃ groups, entriesByDay entries = Some groups.
Proof.
  intros H. unfold entriesByDay.
  generalize (∅ : gmap jsstring (list ScheduleEntry)).
  induction daysOfWeek as [|d ds IH]; intros acc; simpl; [by eexists|].
  destruct (sortByStart_defined (entriesOn d entries)) as [g ->]; [|done].
  apply Forall_forall. intros e He.
  apply list_elem_of_In, filter_In in He as [He _].
  apply list_elem_of_In in He.
  destruct (startMinutes_token e) as (h & m & _ & ->); [|done].
  by apply (proj1 (Forall_forall _ _) H).
Qed.

(** X16: when every start time is made of one or two digits, a colon and
    two digits, which is the form the heuristic parser and the fallback
    set give, each entry compares by the number hours * 60 + minutes, and
    the order of every group is determined. *)
Theorem entriesByDay_defined entries :
  Forall (fun e => time_token (startTime e)) entries →
  (∃ groups, entriesByDay entries = Some groups)
  ∧ ∀ e, e ∈ entries →
      ∃ h m, startTime e = h ++ 58%N :: m
        ∧ startMinutes e = Some (decimal h * 60 + decimal m).
Proof.
  intros H. split.
  - unfold entriesByDay. generalize (∅ : gmap jsstring (list ScheduleEntry)).
    induction daysOfWeek as [|d ds IH]; intros acc; simpl; [by eexists|].
    destruct (sortByStart_defined (entriesOn d entries)) as [g ->]; [|done].
    apply Forall_forall. intros e He.
    apply list_elem_of_In, filter_In in He as [He _].
    apply list_elem_of_In in He.
    destruct (startMinutes_token e) as (h & m & _ & ->); [|done].
    by apply (proj1 (Forall_forall _ _) H).
  - intros e He. apply startMinutes_token.
    by apply (proj1 (Forall_forall _ _) H).
Qed.

Ltac token_of h m :=
  exists (str h), (str m); split; [reflexivity|];
  split; [first [left; reflexivity|right; reflexivity]|];
  split; [reflexivity|]; repeat constructor.

Ltac week_tokens :=
  apply Forall_cons_2; [token_of "10" "00"|];
  apply Forall_cons_2; [token_of "9" "00"|];
  apply Forall_cons_2; [token_of "8" "00"|];
  apply Forall_cons_2; [token_of "13" "30"|];
  apply Forall_cons_2; [token_of "09" "00"|];
  apply Forall_cons_2; [token_of "9" "15"|];
  apply Forall_nil_2.

Lemma entriesByDay_defined_witness :
  (∃ groups, entriesByDay week = Some groups)
  ∧ ∀ e, e ∈ week →
      ∃ h m, startTime e = h ++ 58%N :: m
        ∧ startMinutes e = Some (decimal h * 60 + decimal m).
Proof. apply (entriesByDay_defined week). week_tokens. Defined.



(** X15: when every start time is made of one or two digits, a colon and
    two digits, each group is in the order of the start times counted in
    minutes, hours * 60 + minutes, so 9:00 comes before 10:00, and
    entries that start at the same minute keep the order they have in
    the input. *)
Theorem entriesByDay_sorted entries :
  Forall (fun e => time_token (startTime e)) entries →
  ∃ groups,
    entriesByDay entries = Some groups
    ∧ ∀ d g, groups !! d = Some g →
        StronglySorted minutes_no_later g
        ∧ ∀ k, startingAt k g = startingAt k (entriesOn d entries).
Proof.
  intros Ht. destruct (entriesByDay_total _ Ht) as [groups H].
  exists groups. split; [done|]. intros d g Hg.
  destruct (entriesByDay_lookup _ _ d H) as [H1 H2].
  destruct (decide (d ∈ daysOfWeek)) as [Hd|Hd]; [|by rewrite (H2 Hd) in Hg].
  destruct (H1 Hd) as (g' & Hs & Hg'). simplify_eq.
  apply sortByStart_spec in Hs as (Hp & Hsorted & Hstable). split; [|done].
  assert (Forall (fun e => time_token (startTime e)) g) as Htg.
  { rewrite Hp. apply Forall_forall. intros e He.
    apply list_elem_of_In, filter_In in He as [He _].
    by apply (proj1 (Forall_forall _ _) Ht), list_elem_of_In. }
  clear Hp Hstable Hg. induction Hsorted as [|a g Hsorted IH Ha];
    constructor.
  - apply IH. by apply Forall_cons in Htg as [_ ?].
  - apply Forall_cons in Htg as [Hta Htg].
    apply Forall_forall. intros b Hb.
    destruct (proj1 (Forall_forall _ _) Ha b Hb) as (ka & kb & Hka & Hkb & Hle).
    destruct (startMinutes_token a Hta) as (ha & ma & Hsa & Hma).
    destruct (startMinutes_token b) as (hb & mb & Hsb & Hmb);
      [by apply (proj1 (Forall_forall _ _) Htg)|].
    exists ha, ma, hb, mb. split; [done|]. split; [done|]. congruence.
Qed.

Lemma entriesByDay_sorted_witness :
  ∃ groups,
    entriesByDay week = Some groups
    ∧ ∀ d g, groups !! d = Some g →
        StronglySorted minutes_no_later g
        ∧ ∀ k, startingAt k g = startingAt k (entriesOn d week).
Proof. apply (entriesByDay_sorted week). week_tokens. Defined.

End ViewFacts.

(** ** Data URLs: properties *)

Section DataURLs.

Import Base64.

Implicit Types (bytes : list N) (mediatype mimeType : jsstring).

Ltac euclid := zify; Z.to_euclidean_division_equations; lia.

Lemma list_ind3 {A} (P : list A → Prop) :
  P [] → (∀ a, P [a]) → (∀ a b, P [a; b]) →
  (∀ a b c l, P l → P (a :: b :: c :: l)) → ∀ l, P l.
Proof.
  intros H0 H1 H2 H3 l.
  cut (P l ∧ (∀ a, P (a :: l)) ∧ (∀ a b, P (a :: b :: l))); [tauto|].
  induction l as [|x l (IH0 & IH1 & IH2)]; [done|].
  split; [done|]. split; [done|]. intros a b. by apply H3.
Qed.

(** The table, read both ways. *)
Lemma letter_index n :
  (n < 64)%N →
  index (letter n) = Some n ∧ letter n ≠ 61%N ∧ letter n ≠ 44%N
  ∧ is_ascii_whitespace (letter n) = false.
Proof.
  intros Hn. assert (∃ k, k < 64 ∧ n = N.of_nat k) as (k & Hk & ->).
  { exists (N.to_nat n). lia. }
  clear Hn. do 64 (destruct k as [|k]; [by vm_compute|]). lia.
Qed.

Lemma sextets_lt bytes :
  Forall (fun b => (b < 256)%N) bytes →
  Forall (fun n => (n < 64)%N) (sextets bytes).
Proof.
  induction bytes as [|a|a b|a b c l IH] using list_ind3; intros H;
    repeat (apply Forall_cons in H as [? H]); cbn [sextets].
  - done.
  - repeat constructor; euclid.
  - repeat constructor; euclid.
  - repeat (apply Forall_cons_2; [euclid|]). by apply IH.
Qed.

Lemma sextets_length bytes :
  ∃ q, (length bytes = 3 * q ∧ length (sextets bytes) = 4 * q)
     ∨ (length bytes = 3 * q + 1 ∧ length (sextets bytes) = 4 * q + 2)
     ∨ (length bytes = 3 * q + 2 ∧ length (sextets bytes) = 4 * q + 3).
Proof.
  induction bytes as [|a|a b|a b c l [q IH]] using list_ind3.
  - exists 0. by left.
  - exists 0. right. by left.
  - exists 0. right. by right.
  - exists (S q). cbn [sextets length]. lia.
Qed.

Lemma three_bytes (a b c : N) :
  (a < 256 → b < 256 → c < 256 →
   ((a / 4 * 64 + (a mod 4 * 16 + b / 16)) * 64 + (b mod 16 * 4 + c / 64))
     * 64 + c mod 64 = a * 65536 + b * 256 + c)%N.
Proof. euclid. Qed.

Lemma run_sextets bytes output :
  Forall (fun b => (b < 256)%N) bytes →
  run (sextets bytes) 0%N 0 output = output ++ bytes.
Proof.
  revert output.
  induction bytes as [|a|a b|a b c l IH] using list_ind3; intros output H;
    repeat (apply Forall_cons in H as [? H]);
    cbn [sextets run Nat.add Nat.eqb].
  - by rewrite app_nil_r.
  - do 2 f_equal. euclid.
  - do 2 f_equal; [euclid|]. f_equal. euclid.
  - rewrite (IH _ H), <-app_assoc. f_equal. cbn [app].
    rewrite N.mul_0_l, N.add_0_l, three_bytes by done.
    f_equal; [euclid|]. f_equal; [euclid|]. f_equal. euclid.
Qed.

Lemma mapM_index ns :
  Forall (fun n => (n < 64)%N) ns → mapM index (map letter ns) = Some ns.
Proof.
  induction 1 as [|n ns Hn _ IH]; [done|]. cbn [map mapM].
  by rewrite (proj1 (letter_index n Hn)), IH.
Qed.

Lemma filter_all {A} (f : A → bool) (l : list A) :
  Forall (fun x => f x = true) l → List.filter f l = l.
Proof. induction 1 as [|x l Hx _ IH]; [done|]. cbn. by rewrite Hx, IH. Qed.

Lemma mod_add_l k q r : (k * q + r) mod k = r mod k.
Proof. by rewrite Nat.add_comm, Nat.mul_comm, Nat.Div0.mod_add. Qed.

Lemma encode_letters bytes :
  Forall (fun b => (b < 256)%N) bytes →
  Forall (fun c => c ≠ 44%N ∧ is_ascii_whitespace c = false) (encode bytes).
Proof.
  intros H. apply Forall_app. split.
  - apply Forall_fmap. eapply Forall_impl; [by apply sextets_lt|].
    intros n Hn. cbn. by destruct (letter_index n Hn) as (_ & _ & ? & ?).
  - by apply Forall_replicate.
Qed.

Lemma strip_padding_encode bytes :
  Forall (fun b => (b < 256)%N) bytes →
  strip_padding (encode bytes) = map letter (sextets bytes)
  ∧ length (map letter (sextets bytes)) mod 4 ≠ 1.
Proof.
  intros H. pose proof (sextets_lt _ H) as Hs.
  assert (∀ n ns, sextets bytes = ns ++ [n] →
            (letter n =? 61)%N = false) as Hlast.
  { intros n ns Hn. rewrite Hn in Hs. apply Forall_app in Hs as [_ Hs].
    apply Forall_cons in Hs as [Hs _]. apply N.eqb_neq.
    by destruct (letter_index n Hs) as (_ & ? & _). }
  unfold encode, strip_padding. rewrite length_app, length_replicate, length_map.
  destruct (sextets_length bytes) as [q [[Hb Hl]|[[Hb Hl]|[Hb Hl]]]];
    rewrite Hb, Hl.
  - assert ((3 - (3 * q) mod 3) mod 3 = 0) as ->.
    { by rewrite <-(Nat.add_0_r (3 * q)), mod_add_l. }
    rewrite <-(Nat.add_0_r (4 * q)), Nat.add_0_r, mod_add_l.
    split; [|done]. cbn [replicate]. rewrite app_nil_r.
    change (0 mod 4 =? 0) with true. cbn match.
    destruct (sextets bytes) as [|n ns _] using rev_ind; [done|].
    rewrite map_app, rev_app_distr. cbn [map rev app].
    by rewrite (Hlast n ns).
  - assert ((3 - (3 * q + 1) mod 3) mod 3 = 2) as -> by by rewrite mod_add_l.
    replace (4 * q + 2 + 2) with (4 * (S q) + 0) by lia.
    rewrite !mod_add_l. split; [|done].
    change (0 mod 4 =? 0) with true. cbn match.
    rewrite rev_app_distr. cbn [replicate rev app N.eqb Pos.eqb].
    by rewrite rev_involutive.
  - assert ((3 - (3 * q + 2) mod 3) mod 3 = 1) as -> by by rewrite mod_add_l.
    replace (4 * q + 3 + 1) with (4 * (S q) + 0) by lia.
    rewrite !mod_add_l. split; [|done].
    change (0 mod 4 =? 0) with true. cbn match.
    rewrite rev_app_distr. cbn [replicate rev app N.eqb Pos.eqb].
    destruct (sextets bytes) as [|n ns _] using rev_ind; [cbn in Hl; lia|].
    rewrite map_app, rev_app_distr. cbn [map rev app].
    rewrite (Hlast n ns) by done.
    change (letter n :: rev (map letter ns))
      with (rev (map letter ns ++ [letter n])).
    by rewrite rev_involutive.
Qed.

Lemma decode_encode bytes :
  Forall (fun b => (b < 256)%N) bytes → decode (encode bytes) = Some bytes.
Proof.
  intros H. unfold decode. rewrite filter_all.
  - destruct (strip_padding_encode _ H) as [-> Hl].
    rewrite (proj2 (Nat.eqb_neq _ _) Hl), (mapM_index _ (sextets_lt _ H)).
    cbn. by rewrite run_sextets.
  - eapply Forall_impl; [by apply encode_letters|].
    by intros c [_ ->].
Qed.

(** The loop of [base64ToBlob] fills the buffer with the code units. *)
Lemma copy_loop (byteString : jsstring) n :
  n ≤ length byteString →
  foldl (fun ia i => <[i := ToUint8 (charCodeAt byteString i)]> ia)
    (replicate (length byteString) 0%N) (seq 0 n)
  = map (fun c => c mod 256)%N (take n byteString)
      ++ replicate (length byteString - n) 0%N.
Proof.
  induction n as [|n IH]; intros Hn.
  - by rewrite Nat.sub_0_r.
  - rewrite seq_S, foldl_app, IH by lia. cbn [foldl Nat.add].
    destruct (lookup_lt_is_Some_2 byteString n) as [c Hc]; [lia|].
    rewrite (take_S_r _ _ _ Hc), map_app, <-app_assoc.
    unfold charCodeAt. rewrite Hc. cbn [ToUint8 from_option map app].
    rewrite insert_app_r_alt by (rewrite length_map, length_take; lia).
    rewrite length_map, length_take, Nat.min_l, Nat.sub_diag by lia.
    by replace (length byteString - n) with (S (length byteString - S n))
      by lia.
Qed.

Lemma base64ToBlob_payload (pre : jsstring) bytes mimeType :
  44%N ∉ pre → Forall (fun b => (b < 256)%N) bytes →
  base64ToBlob (pre ++ 44%N :: encode bytes) mimeType
  = Some (new_Blob [bytes] mimeType).
Proof.
  intros Hpre H. unfold base64ToBlob.
  rewrite (split_first _ _ _ Hpre), split_no_sep.
  - cbn [lookup list_lookup]. unfold atob. cbn [default from_option id].
    rewrite (decode_encode _ H). cbn [mbind option_bind].
    rewrite copy_loop, firstn_all, Nat.sub_diag by done.
    cbn [replicate]. rewrite app_nil_r. do 3 f_equal.
    clear Hpre. induction H as [|b bytes Hb _ IH]; [done|].
    cbn [map]. by rewrite IH, N.mod_small.
  - intros Hin. pose proof (encode_letters _ H) as Hl.
    by destruct (proj1 (Forall_forall _ _) Hl _ Hin).
Qed.

(** X17: [base64ToBlob] undoes the data URL encoding. For the base64 data
    URL of any bytes, under any media type without a comma, it gives the
    blob of those bytes, with the type it was asked for. *)
Theorem base64ToBlob_dataURL mediatype bytes mimeType :
  44%N ∉ mediatype →
  Forall (fun b => (b < 256)%N) bytes →
  base64ToBlob (dataURL mediatype bytes) mimeType
  = Some (new_Blob [bytes] mimeType).
Proof.
  intros Ht Hb. unfold dataURL.
  change (str ";base64,") with (str ";base64" ++ [44%N]).
  rewrite !app_assoc, <-(app_assoc _ [44%N]).
  apply base64ToBlob_payload; [|done].
  rewrite !not_elem_of_app. split; [split|]; [|done|];
    by apply (bool_decide_unpack _); vm_compute.
Qed.

Lemma base64ToBlob_dataURL_witness :
  base64ToBlob (dataURL (str "image/png") png_signature) (str "image/png")
  = Some (new_Blob [png_signature] (str "image/png")).
Proof.
  apply base64ToBlob_dataURL.
  - by apply (bool_decide_unpack _); vm_compute.
  - repeat constructor.
Defined.

(** X18: [base64ToBlob] throws on every string without a comma, a bare
    base64 string among them: [split(',')[1]] is [undefined], which [atob]
    reads as the nine letters of "undefined". *)
Theorem base64ToBlob_without_comma (base mimeType : jsstring) :
  44%N ∉ base → base64ToBlob base mimeType = None.
Proof.
  intros H. unfold base64ToBlob. by rewrite (split_no_sep _ _ H).
Qed.

Lemma base64ToBlob_without_comma_witness :
  base64ToBlob (Base64.encode png_signature) (str "image/png") = None.
Proof.
  apply base64ToBlob_without_comma.
  by apply (bool_decide_unpack _); vm_compute.
Defined.

End DataURLs.
